(** * fetch_pr_comments.py: the comment aggregation of implementing-pr-review

    A shallow embedding of [skills/implementing-pr-review/scripts/
    fetch_pr_comments.py] and the properties its specification states.

    - Python [str] is a sequence of code points: [list N].
    - Python [int] is [Z]; a JSON field that may be [null] or missing and is
      read with [dict.get] is an [option]; [diff_hunk], a string read with
      the default [""], is [None] when its key is missing.
    - [top_level] is an insertion-ordered [dict]: an association list that
      keeps the position of a key that is assigned again.
    - [replies] is only read by key: a [gmap].
    - [resolved_ids] is a [set] only asked for membership: a [gset].
    - [gh] is the outside world: a state machine whose answers are either
      an error or the decoded JSON value. *)

From Stdlib Require Import ZArith NArith Ascii String.
From stdpp Require Import base option list gmap.

Open Scope Z_scope.

(** ** Python strings *)

Module Py.

Abbreviation str := (list N).

(** A literal of the source, code point by code point. *)
Definition lit (s : string) : str :=
  N_of_ascii <$> list_ascii_of_string s.

(** Truthiness of the values the script tests with [or], [if] and
    [not]: [None] and [0] are false. *)
Definition truthy_int (v : option Z) : bool :=
  match v with
  | None => false
  | Some z => negb (z =? 0)
  end.

(** [a or b] on values that are an [int] or [None]. *)
Definition or_int (a b : option Z) : option Z :=
  if truthy_int a then a else b.

(** [s.split(sep, 1)] for a one-character separator: the text before the
    first separator and the text after it, or the whole text alone. *)
Fixpoint split1 (sep : N) (s : str) : list str :=
  match s with
  | [] => [[]]
  | c :: s' =>
      if decide (c = sep) then [[]; s']
      else match split1 sep s' with
           | hd :: tl => (c :: hd) :: tl
           | [] => [[c]]
           end
  end.

End Py.

(** ** Data model *)

(** A record of [GET repos/{repo}/pulls/{number}/comments], at the keys the
    script reads.  [c["id"]], [c["user"]["login"]], [c["path"]] and
    [c["body"]] are subscripted; the others are read with [c.get]. *)
Record raw_comment := RawComment {
  rc_id : Z;
  rc_user_login : Py.str;
  rc_path : Py.str;
  rc_line : option Z;
  rc_original_line : option Z;
  rc_body : Py.str;
  rc_diff_hunk : option Py.str;
  rc_position : option Z;
  rc_in_reply_to_id : option Z
}.

(** [{"id": ..., "author": ..., "body": ...}] inside ["replies"]. *)
Record reply := Reply {
  rp_id : Z;
  rp_author : Py.str;
  rp_body : Py.str
}.

(** An entry of ["review_comments"]. *)
Record review_comment := ReviewComment {
  rv_id : Z;
  rv_author : Py.str;
  rv_path : Py.str;
  rv_line : option Z;
  rv_body : Py.str;
  rv_diff_hunk : Py.str;
  rv_outdated : bool;
  rv_resolved : bool;
  rv_replies : list reply
}.

(** ** Insertion-ordered dictionaries *)

Module ODict.

Abbreviation t V := (list (Z * V)).

(** [d[k] = v]: a key already present keeps its place. *)
Fixpoint set {V} (k : Z) (v : V) (d : t V) : t V :=
  match d with
  | [] => [(k, v)]
  | (k', v') :: d' =>
      if decide (k' = k) then (k, v) :: d' else (k', v') :: set k v d'
  end.

(** [d.get(k)]. *)
Fixpoint get {V} (k : Z) (d : t V) : option V :=
  match d with
  | [] => None
  | (k', v') :: d' => if decide (k' = k) then Some v' else get k d'
  end.

(** [d.keys()] and [d.values()], in insertion order. *)
Definition keys {V} (d : t V) : list Z := fst <$> d.
Definition values {V} (d : t V) : list V := snd <$> d.

End ODict.

(** ** The comment tree assembler (fetch_pr_comments, lines 153-183) *)

(** The dictionary appended to a parent's list. *)
Definition reply_of (c : raw_comment) : reply :=
  {| rp_id := rc_id c; rp_author := rc_user_login c; rp_body := rc_body c |}.

(** [replies.setdefault(k, [])] used as a statement. *)
Definition setdefault_nil (k : Z) (replies : gmap Z (list reply))
  : gmap Z (list reply) :=
  match replies !! k with
  | Some _ => replies
  | None => <[k := []]> replies
  end.

(** [replies.setdefault(k, []).append(r)]. *)
Definition setdefault_append (k : Z) (r : reply)
    (replies : gmap Z (list reply)) : gmap Z (list reply) :=
  <[k := default [] (replies !! k) ++ [r]]> replies.

(** The two dictionaries of the loop. *)
Record buckets := Buckets {
  top_level : ODict.t raw_comment;
  replies : gmap Z (list reply)
}.

(** One round of [for c in raw_review]. *)
Definition separate_step (b : buckets) (c : raw_comment) : buckets :=
  match rc_in_reply_to_id c with
  | None =>
      {| top_level := ODict.set (rc_id c) c (top_level b);
         replies := setdefault_nil (rc_id c) (replies b) |}
  | Some parent_id =>
      {| top_level := top_level b;
         replies := setdefault_append parent_id (reply_of c) (replies b) |}
  end.

Definition separate (raw_review : list raw_comment) : buckets :=
  fold_left separate_step raw_review
    {| top_level := []; replies := ∅ |}.

(** The dictionary built for one value of [top_level]. *)
Definition review_comment_of (resolved_ids : gset Z)
    (replies : gmap Z (list reply)) (c : raw_comment) : review_comment :=
  {| rv_id := rc_id c;
     rv_author := rc_user_login c;
     rv_path := rc_path c;
     rv_line := Py.or_int (rc_line c) (rc_original_line c);
     rv_body := rc_body c;
     rv_diff_hunk := default [] (rc_diff_hunk c);
     rv_outdated := bool_decide (rc_position c = None);
     rv_resolved := bool_decide (rc_id c ∈ resolved_ids);
     rv_replies := default [] (replies !! rc_id c) |}.

(** [review_comments], from the inline records and the resolved ids. *)
Definition review_comments (resolved_ids : gset Z)
    (raw_review : list raw_comment) : list review_comment :=
  let b := separate raw_review in
  review_comment_of resolved_ids (replies b) <$> ODict.values (top_level b).

(** ** The thread resolution resolver (fetch_resolved_thread_ids) *)

(** A node of [reviewThreads]: [isResolved] and the [databaseId]s under
    [comments(first: 1).nodes]. *)
Record review_thread := ReviewThread {
  th_isResolved : bool;
  th_comments : list Z
}.

(** One page of [reviewThreads] with its [pageInfo]. *)
Record threads_page := ThreadsPage {
  pg_nodes : list review_thread;
  pg_hasNextPage : bool;
  pg_endCursor : option Py.str
}.

(** The body of [for thread in threads["nodes"]]. *)
Definition add_resolved (resolved : gset Z) (thread : review_thread)
  : gset Z :=
  if th_isResolved thread then
    match th_comments thread with
    | databaseId :: _ => {[databaseId]} ∪ resolved
    | [] => resolved
    end
  else resolved.

(** ** Issue comments and PR metadata *)

Record raw_issue_comment := RawIssueComment {
  ric_id : Z;
  ric_user_login : Py.str;
  ric_body : Py.str
}.

Record issue_comment := IssueComment {
  ic_id : Z;
  ic_author : Py.str;
  ic_body : Py.str
}.

Definition issue_comment_of (c : raw_issue_comment) : issue_comment :=
  {| ic_id := ric_id c; ic_author := ric_user_login c; ic_body := ric_body c |}.

(** What [--jq "{title: .title, url: .html_url, body: .body}"] leaves. *)
Record pr_data := PrData {
  pr_title : Py.str;
  pr_url : Py.str;
  pr_body : option Py.str
}.

(** ** The [gh] command line *)

(** The four commands the script runs, by what varies in them. *)
Inductive request :=
| GetPull (repo number : Py.str)
| GraphqlReviewThreads (owner repo : Py.str) (number : Z)
    (cursor : option Py.str)
| GetPullComments (repo number : Py.str)
| GetIssueComments (repo number : Py.str).

(** The decoded standard output of a command that exited with status 0. *)
Inductive answer :=
| PullAnswer (d : pr_data)
| ThreadsAnswer (p : threads_page)
| CommentsAnswer (l : list raw_comment)
| IssueCommentsAnswer (l : list raw_issue_comment).

(** The dictionary [fetch_pr_comments] returns.  ["pr"] is the answer to
    the metadata command as it came: the script does not look into it. *)
Record document := Document {
  doc_pr : answer;
  doc_review_comments : list review_comment;
  doc_issue_comments : list issue_comment
}.

(** What the script does not contain and relies on: the [gh] process (a
    state machine: the forge and the network are behind it), and from
    Python's library [int] on a [str], [json.dumps] on the document and the
    code points [\d] accepts. *)
Class Host := {
  gh_state : Type;
  gh_error : Type;
  gh : request → gh_state → (gh_error + answer) * gh_state;
  py_int : Py.str → option Z;
  json_dumps : document → Py.str;
  unicode_decimal : N → bool
}.

(** ** Exceptions, process state and the monad of the script *)

Inductive exn `{Host} :=
| TransportError (e : gh_error)
| ShapeError
| ValueError
| SystemExit (code : Z).

(** How a call ends; [OutOfFuel] is not a Python outcome: the [while True]
    of the resolver was cut. *)
Inductive outcome `{Host} (A : Type) :=
| Done (a : A)
| Raised (e : exn)
| OutOfFuel.
Arguments Done {_ _} a.
Arguments Raised {_ _} e.
Arguments OutOfFuel {_ _}.

(** A line written to standard error: the module docstring or a text. *)
Inductive stderr_line :=
| UsageDoc
| ErrText (s : Py.str).

Record process `{Host} := Process {
  p_gh : gh_state;
  p_calls : list (request * option gh_error);
  p_stderr : list stderr_line;
  p_stdout : list Py.str
}.

Arguments Process {_} _ _ _ _.

Definition M `{Host} (A : Type) : Type := process → outcome A * process.

Definition ret `{Host} {A} (a : A) : M A := λ p, (Done a, p).

Definition raise `{Host} {A} (e : exn) : M A := λ p, (Raised e, p).

Definition out_of_fuel `{Host} {A} : M A := λ p, (OutOfFuel, p).

Definition bind `{Host} {A B} (m : M A) (k : A → M B) : M B := λ p,
  match m p with
  | (Done a, p') => k a p'
  | (Raised e, p') => (Raised e, p')
  | (OutOfFuel, p') => (OutOfFuel, p')
  end.

Declare Scope script_scope.
Delimit Scope script_scope with script.
Notation "x <- m ;; k" := (bind m (λ x, k))
  (at level 100, m at next level, right associativity) : script_scope.
Notation "m ;; k" := (bind m (λ _, k))
  (at level 100, right associativity) : script_scope.
Open Scope script_scope.

(** [print(..., file=sys.stderr)] and [print(...)]. *)
Definition print_stderr `{Host} (l : stderr_line) : M unit := λ p,
  (Done tt, {| p_gh := p_gh p; p_calls := p_calls p;
               p_stderr := p_stderr p ++ [l]; p_stdout := p_stdout p |}).

Definition print_stdout `{Host} (s : Py.str) : M unit := λ p,
  (Done tt, {| p_gh := p_gh p; p_calls := p_calls p;
               p_stderr := p_stderr p; p_stdout := p_stdout p ++ [s] |}).

(** [subprocess.run(["gh", ...], check=True)] followed by [json.loads]: the
    call is made, and a failure of either is raised. *)
Definition run_gh `{Host} (req : request) : M answer := λ p,
  let '(r, s) := gh req (p_gh p) in
  match r with
  | inl e =>
      (Raised (TransportError e),
       {| p_gh := s; p_calls := p_calls p ++ [(req, Some e)];
          p_stderr := p_stderr p; p_stdout := p_stdout p |})
  | inr a =>
      (Done a,
       {| p_gh := s; p_calls := p_calls p ++ [(req, None)];
          p_stderr := p_stderr p; p_stdout := p_stdout p |})
  end.

(** Reading an answer at the shape the caller subscripts; another shape
    raises at the first subscript. *)
Definition as_threads `{Host} (a : answer) : M threads_page :=
  match a with ThreadsAnswer pg => ret pg | _ => raise ShapeError end.

Definition as_comments `{Host} (a : answer) : M (list raw_comment) :=
  match a with CommentsAnswer l => ret l | _ => raise ShapeError end.

Definition as_issue_comments `{Host} (a : answer)
  : M (list raw_issue_comment) :=
  match a with IssueCommentsAnswer l => ret l | _ => raise ShapeError end.

(** The [while True] of [fetch_resolved_thread_ids]: one query per round,
    the resolved threads of the page added, the cursor followed while
    [hasNextPage] holds.  [fuel] bounds the number of rounds. *)
Fixpoint resolved_loop `{Host} (fuel : nat) (owner repo : Py.str)
    (number : Z) (cursor : option Py.str) (resolved : gset Z)
  : M (gset Z) :=
  match fuel with
  | O => out_of_fuel
  | S fuel' =>
      a <- run_gh (GraphqlReviewThreads owner repo number cursor);;
      threads <- as_threads a;;
      let resolved' := fold_left add_resolved (pg_nodes threads) resolved in
      if negb (pg_hasNextPage threads) then ret resolved'
      else resolved_loop fuel' owner repo number (pg_endCursor threads)
             resolved'
  end.

Definition fetch_resolved_thread_ids `{Host} (fuel : nat)
    (owner repo : Py.str) (number : Z) : M (gset Z) :=
  resolved_loop fuel owner repo number None ∅.

(** ** The regular expressions [parse_pr_ref] needs *)

Module Re.

(** Literal text, [cls+] for a class of code points, concatenation and a
    capturing group. *)
Inductive regex :=
| Lit (s : Py.str)
| Plus (cls : N → bool)
| Cat (r1 r2 : regex)
| Group (r : regex).

Fixpoint strip_prefix (l s : Py.str) : option Py.str :=
  match l, s with
  | [], _ => Some s
  | a :: l', c :: s' => if decide (a = c) then strip_prefix l' s' else None
  | _ :: _, [] => None
  end.

(** Greedy [cls+] in front of the continuation [k]: the longest run is
    tried first, then each shorter one down to one code point. *)
Fixpoint plus {A} (cls : N → bool) (s : Py.str) (k : Py.str → option A)
  : option A :=
  match s with
  | c :: s' =>
      if cls c then
        match plus cls s' k with
        | Some a => Some a
        | None => k s'
        end
      else None
  | [] => None
  end.

(** Backtracking matcher: [k] receives the text left and the groups closed
    so far. *)
Fixpoint go {A} (r : regex) (s : Py.str) (gs : list Py.str)
    (k : Py.str → list Py.str → option A) : option A :=
  match r with
  | Lit l =>
      match strip_prefix l s with
      | Some s' => k s' gs
      | None => None
      end
  | Plus cls => plus cls s (λ s', k s' gs)
  | Cat r1 r2 => go r1 s gs (λ s' gs', go r2 s' gs' k)
  | Group r1 =>
      go r1 s gs
        (λ s' gs', k s' (gs' ++ [take (length s - length s') s]))
  end.

(** [re.match(r, s)]: anchored at the start of [s], not at its end. *)
Definition match_ (r : regex) (s : Py.str) : option (list Py.str) :=
  go r s [] (λ _ gs, Some gs).

(** [m.group(i)] for [i >= 1]. *)
Definition group (m : list Py.str) (i : nat) : Py.str :=
  default [] (m !! (i - 1)%nat).

End Re.

Definition slash : N := 47.

Definition not_slash (c : N) : bool := negb (c =? slash)%N.

(** [r"https://github\.com/([^/]+/[^/]+)/pull/(\d+)"]. *)
Definition pr_url_pattern `{Host} : Re.regex :=
  Re.Cat (Re.Lit (Py.lit "https://github.com/"))
    (Re.Cat
       (Re.Group
          (Re.Cat (Re.Plus not_slash)
             (Re.Cat (Re.Lit (Py.lit "/")) (Re.Plus not_slash))))
       (Re.Cat (Re.Lit (Py.lit "/pull/"))
          (Re.Group (Re.Plus unicode_decimal)))).

(** ** parse_pr_ref, fetch_pr_comments, main *)

Definition parse_pr_ref `{Host} (args : list Py.str) : M (Py.str * Py.str) :=
  match args with
  | [url] =>
      match Re.match_ pr_url_pattern url with
      | None =>
          print_stderr (ErrText (Py.lit "Error: Cannot parse PR URL: " ++ url));;
          raise (SystemExit 1)
      | Some m => ret (Re.group m 1, Re.group m 2)
      end
  | [a0; a1] => ret (a0, a1)
  | _ =>
      print_stderr UsageDoc;;
      raise (SystemExit 1)
  end.

(** [a, b = l]. *)
Definition unpack2 `{Host} {A} (l : list A) : M (A * A) :=
  match l with
  | [a; b] => ret (a, b)
  | _ => raise ValueError
  end.

(** [int(number)]. *)
Definition int_of `{Host} (s : Py.str) : M Z :=
  match py_int s with
  | Some z => ret z
  | None => raise ValueError
  end.

Definition fetch_pr_comments `{Host} (fuel : nat) (repo number : Py.str)
  : M document :=
  names <- unpack2 (Py.split1 slash repo);;
  pr_data <- run_gh (GetPull repo number);;
  n <- int_of number;;
  resolved_ids <- fetch_resolved_thread_ids fuel names.1 names.2 n;;
  a_review <- run_gh (GetPullComments repo number);;
  raw_review <- as_comments a_review;;
  a_issue <- run_gh (GetIssueComments repo number);;
  raw_issue <- as_issue_comments a_issue;;
  ret {| doc_pr := pr_data;
         doc_review_comments := review_comments resolved_ids raw_review;
         doc_issue_comments := issue_comment_of <$> raw_issue |}.

(** [main], from [sys.argv[1:]]. *)
Definition main `{Host} (fuel : nat) (args : list Py.str) : M unit :=
  match args with
  | [] =>
      print_stderr UsageDoc;;
      raise (SystemExit 1)
  | _ =>
      ref <- parse_pr_ref args;;
      data <- fetch_pr_comments fuel ref.1 ref.2;;
      print_stdout (json_dumps data)
  end.

(** The exit status of the process: 0 on return, the code of [sys.exit],
    1 for an exception that reaches the top. *)
Definition exit_status `{Host} {A} (o : outcome A) : option Z :=
  match o with
  | Done _ => Some 0
  | Raised (SystemExit code) => Some code
  | Raised _ => Some 1
  | OutOfFuel => None
  end.

(** ** Reading the assembler's result against its input *)

(** [c] is the record [top_level[k]] holds when the loop ends: the last
    record of [raw] with a null [in_reply_to_id] and id [k]. *)
Definition source_of (raw : list raw_comment) (k : Z) (c : raw_comment)
  : Prop :=
  ∃ pre post,
    raw = pre ++ c :: post ∧
    rc_in_reply_to_id c = None ∧
    rc_id c = k ∧
    ∀ d, d ∈ post → rc_in_reply_to_id d = None → rc_id d ≠ k.

(** The records answering to the parent id [k], in input order. *)
Definition replies_to (k : Z) (raw : list raw_comment) : list raw_comment :=
  filter (λ c, rc_in_reply_to_id c = Some k) raw.

(** The top-level records with id [k], in input order. *)
Definition top_level_with (k : Z) (raw : list raw_comment)
  : list raw_comment :=
  filter (λ c, rc_in_reply_to_id c = None ∧ rc_id c = k) raw.

(** ** Sample inputs *)

Module Sample.

(** A record by the fields the assembler branches on. *)
Definition comment (id : Z) (parent line original_line position : option Z)
  : raw_comment :=
  {| rc_id := id;
     rc_user_login := Py.lit "reviewer";
     rc_path := Py.lit "src/foo.py";
     rc_line := line;
     rc_original_line := original_line;
     rc_body := Py.lit "Consider using ...";
     rc_diff_hunk := Some (Py.lit "@@ -8,6 +8,7 @@");
     rc_position := position;
     rc_in_reply_to_id := parent |}.

(** A thread (55, answered by 56) and a lone comment (60). *)
Definition two_threads : list raw_comment :=
  [ comment 55 None (Some 10) (Some 10) (Some 4);
    comment 56 (Some 55) (Some 10) (Some 10) (Some 4);
    comment 60 None None (Some 42) None ].

(** The same with a reply (61) to an id (99) no top-level record has. *)
Definition with_orphan : list raw_comment :=
  [ comment 55 None (Some 10) (Some 10) (Some 4);
    comment 61 (Some 99) (Some 3) (Some 3) (Some 1);
    comment 56 (Some 55) (Some 10) (Some 10) (Some 4);
    comment 60 None None (Some 42) None ].

(** The top-level id 55 twice, the second time without a position. *)
Definition repeated_id : list raw_comment :=
  [ comment 55 None (Some 10) (Some 10) (Some 4);
    comment 56 (Some 55) (Some 10) (Some 10) (Some 4);
    comment 55 None None (Some 7) None ].

(** A reply that carries the id of the comment it answers. *)
Definition reply_with_parent_id : list raw_comment :=
  [ comment 5 None (Some 1) (Some 1) (Some 1);
    comment 5 (Some 5) (Some 1) (Some 1) (Some 1) ].

(** A top-level record whose [line] is the integer 0. *)
Definition line_zero : list raw_comment :=
  [ comment 7 None (Some 0) (Some 42) (Some 1) ].

End Sample.

(** ** Reading a run of the script *)

(** A process that has called and printed nothing yet. *)
Definition fresh `{Host} (s : gh_state) : process :=
  {| p_gh := s; p_calls := []; p_stderr := []; p_stdout := [] |}.

(** The calls made, and the lines printed, between two process states. *)
Definition calls_made `{Host} (p p' : process)
  : list (request * option gh_error) :=
  drop (length (p_calls p)) (p_calls p').

Definition printed `{Host} (p p' : process) : list Py.str :=
  drop (length (p_stdout p)) (p_stdout p').

(** From state [s] and cursor [cursor], [gh] answers the queries of the
    resolver with the pages [pages], the last of which is the first
    without a next page, and is left in state [s']. *)
Inductive serves `{Host} (owner repo : Py.str) (number : Z)
  : gh_state → option Py.str → list threads_page → gh_state → Prop :=
| serves_last s cursor pg s' :
    gh (GraphqlReviewThreads owner repo number cursor) s
      = (inr (ThreadsAnswer pg), s') →
    pg_hasNextPage pg = false →
    serves owner repo number s cursor [pg] s'
| serves_next s cursor pg s1 pgs s' :
    gh (GraphqlReviewThreads owner repo number cursor) s
      = (inr (ThreadsAnswer pg), s1) →
    pg_hasNextPage pg = true →
    serves owner repo number s1 (pg_endCursor pg) pgs s' →
    serves owner repo number s cursor (pg :: pgs) s'.

(** The answers of [gh] do not depend on its state: the PR and its comments
    do not change while the script runs, or between two runs. *)
Definition stable_snapshot `{Host} : Prop :=
  ∀ req s1 s2, (gh req s1).1 = (gh req s2).1.

(** ** The PR references of the specification and of the script *)

(** [s.split(sep)]. *)
Fixpoint split_all (sep : N) (s : Py.str) : list Py.str :=
  match s with
  | [] => [[]]
  | c :: s' =>
      if decide (c = sep) then [] :: split_all sep s'
      else match split_all sep s' with
           | hd :: tl => (c :: hd) :: tl
           | [] => [[c]]
           end
  end.

Definition nonempty (s : Py.str) : bool :=
  match s with [] => false | _ => true end.

(** The form the specification gives a PR URL,
    [https://<host>/<owner>/<repo>/pull/<number>]: the host, [owner/repo]
    and the number of a URL of that form. *)
Definition spec_pr_url `{Host} (url : Py.str)
  : option (Py.str * Py.str * Py.str) :=
  match Re.strip_prefix (Py.lit "https://") url with
  | Some rest =>
      match split_all slash rest with
      | [host; owner; repo; pull; number] =>
          if nonempty host && nonempty owner && nonempty repo
             && bool_decide (pull = Py.lit "pull")
             && nonempty number && forallb unicode_decimal number
          then Some (host, owner ++ [slash] ++ repo, number)
          else None
      | _ => None
      end
  | None => None
  end.

(** What the pattern of [parse_pr_ref] accepts: a text that starts with
    [https://github.com/<owner>/<repo>/pull/<number>], where [number] is
    the longest run of decimal digits there and [rest] is what follows. *)
Definition github_pr_prefix `{Host} (url owner repo number rest : Py.str)
  : Prop :=
  url = Py.lit "https://github.com/" ++ owner ++ [slash] ++ repo
          ++ Py.lit "/pull/" ++ number ++ rest ∧
  owner ≠ [] ∧ Forall (λ c, c ≠ slash) owner ∧
  repo ≠ [] ∧ Forall (λ c, c ≠ slash) repo ∧
  number ≠ [] ∧ Forall (λ c, unicode_decimal c = true) number ∧
  (∀ c, head rest = Some c → unicode_decimal c = false).

(** ** A scripted host *)

Module SampleHost.

Definition ascii_decimal (c : N) : bool := ((48 <=? c) && (c <=? 57))%N.

Fixpoint int_digits (acc : Z) (s : Py.str) : option Z :=
  match s with
  | [] => Some acc
  | c :: s' =>
      if ascii_decimal c then int_digits (10 * acc + (Z.of_N c - 48)) s'
      else None
  end.

(** [int] on a text of ASCII digits. *)
Definition int_ascii (s : Py.str) : option Z :=
  match s with
  | [] => None
  | _ => int_digits 0 s
  end.

(** A serialisation that keeps the ids, enough to tell documents apart. *)
Definition dumps_ids (d : document) : Py.str :=
  Z.to_N <$> ((rv_id <$> doc_review_comments d)
              ++ (ic_id <$> doc_issue_comments d)).

Definition pr : pr_data :=
  {| pr_title := Py.lit "Add parser";
     pr_url := Py.lit "https://github.com/owner/repo/pull/42";
     pr_body := None |}.

(** Two pages of threads; the first has a resolved thread without
    comments. *)
Definition page1 : threads_page :=
  {| pg_nodes := [ {| th_isResolved := true; th_comments := [55] |};
                   {| th_isResolved := false; th_comments := [60] |};
                   {| th_isResolved := true; th_comments := [] |} ];
     pg_hasNextPage := true;
     pg_endCursor := Some (Py.lit "Mw") |}.

Definition page2 : threads_page :=
  {| pg_nodes := [ {| th_isResolved := true; th_comments := [70] |};
                   {| th_isResolved := false; th_comments := [] |} ];
     pg_hasNextPage := false;
     pg_endCursor := None |}.

Definition issue_comments : list raw_issue_comment :=
  [ {| ric_id := 456; ric_user_login := Py.lit "reviewer";
       ric_body := Py.lit "Overall this looks good but ..." |} ].

(** The forge: what each command answers. *)
Definition forge (req : request) : string + answer :=
  match req with
  | GetPull _ _ => inr (PullAnswer pr)
  | GraphqlReviewThreads _ _ _ None => inr (ThreadsAnswer page1)
  | GraphqlReviewThreads _ _ _ (Some cursor) =>
      if decide (cursor = Py.lit "Mw") then inr (ThreadsAnswer page2)
      else inl "cursor"%string
  | GetPullComments _ _ => inr (CommentsAnswer Sample.two_threads)
  | GetIssueComments _ _ => inr (IssueCommentsAnswer issue_comments)
  end.

(** A host that answers from the forge and counts the calls it served. *)
Definition steady : Host :=
  {| gh_state := nat;
     gh_error := string;
     gh := λ req n, (forge req, S n);
     py_int := int_ascii;
     json_dumps := dumps_ids;
     unicode_decimal := ascii_decimal |}.

(** The same host with the inline comments endpoint out of order. *)
Definition failing : Host :=
  {| gh_state := nat;
     gh_error := string;
     gh := λ req n,
       (match req with
        | GetPullComments _ _ => inl "HTTP 502"%string
        | _ => forge req
        end, S n);
     py_int := int_ascii;
     json_dumps := dumps_ids;
     unicode_decimal := ascii_decimal |}.

End SampleHost.

(** ** Properties of computations *)

(** [m] only adds to the record of calls, and a call that failed while it
    ran is the exception it raises. *)
Definition surfaces_failures `{Host} {A} (m : M A) : Prop :=
  ∀ p, ∃ new,
    p_calls (m p).2 = p_calls p ++ new ∧
    ∀ req e, (req, Some e) ∈ new → (m p).1 = Raised (TransportError e).

(** [m] writes nothing to standard output. *)
Definition silent `{Host} {A} (m : M A) : Prop :=
  ∀ p, p_stdout (m p).2 = p_stdout p.

(** [m] writes nothing to standard output unless it returns. *)
Definition silent_unless_done `{Host} {A} (m : M A) : Prop :=
  ∀ p, (∃ a, (m p).1 = Done a) ∨ p_stdout (m p).2 = p_stdout p.

(** The outcome of [m] and the lines it prints are the same from any two
    process states. *)
Definition state_blind `{Host} {A} (m : M A) : Prop :=
  ∀ p1 p2,
    (m p1).1 = (m p2).1 ∧
    ∃ out, p_stdout (m p1).2 = p_stdout p1 ++ out ∧
           p_stdout (m p2).2 = p_stdout p2 ++ out.

(** The longest prefix of [s] in the class [cls], and what follows it. *)
Fixpoint take_while (cls : N → bool) (s : Py.str) : Py.str :=
  match s with
  | c :: s' => if cls c then c :: take_while cls s' else []
  | [] => []
  end.

Fixpoint drop_while (cls : N → bool) (s : Py.str) : Py.str :=
  match s with
  | c :: s' => if cls c then drop_while cls s' else s
  | [] => []
  end.

(** The shape of the pattern of [parse_pr_ref], for any literals and
    classes: [l1(c1+l2c2+)l3(c3+)]. *)
Definition two_groups (l1 l2 l3 : Py.str) (c1 c2 c3 : N → bool) : Re.regex :=
  Re.Cat (Re.Lit l1)
    (Re.Cat (Re.Group (Re.Cat (Re.Plus c1) (Re.Cat (Re.Lit l2) (Re.Plus c2))))
       (Re.Cat (Re.Lit l3) (Re.Group (Re.Plus c3)))).


(** ** Further reading of the assembler and of a run *)

(** The entry of the output for the record [c], by the input alone. *)
Definition entry_of (resolved_ids : gset Z) (raw : list raw_comment)
    (c : raw_comment) : review_comment :=
  {| rv_id := rc_id c;
     rv_author := rc_user_login c;
     rv_path := rc_path c;
     rv_line := Py.or_int (rc_line c) (rc_original_line c);
     rv_body := rc_body c;
     rv_diff_hunk := default [] (rc_diff_hunk c);
     rv_outdated := bool_decide (rc_position c = None);
     rv_resolved := bool_decide (rc_id c ∈ resolved_ids);
     rv_replies := reply_of <$> replies_to (rc_id c) raw |}.

(** The records of [raw] with a null [in_reply_to_id], in input order. *)
Definition top_level_records (raw : list raw_comment) : list raw_comment :=
  filter (λ c, rc_in_reply_to_id c = None) raw.

(** The elements of a list in the order of their first occurrence. *)
Fixpoint first_seen (l : list Z) : list Z :=
  match l with
  | [] => []
  | x :: l' => x :: filter (λ y, y ≠ x) (first_seen l')
  end.

(** The cursors the resolver sends when [gh] serves [pages]: none for the
    first query, then the [endCursor] of each page but the last. *)
Fixpoint next_cursors (pages : list threads_page) : list (option Py.str) :=
  match pages with
  | pg :: (_ :: _) as rest => pg_endCursor pg :: next_cursors rest
  | _ => []
  end.

Definition thread_queries (owner repo : Py.str) (number : Z)
    (cursor : option Py.str) (pages : list threads_page) : list request :=
  GraphqlReviewThreads owner repo number
    <$> (cursor :: next_cursors pages).

(** A recorded call that succeeded. *)
Definition succeeded `{Host} (call : request * option gh_error) : Prop :=
  call.2 = None.

(** The calls [m] adds all succeeded, but for one failed call at the very
    end exactly when [m] raises that call's error. *)
Definition stops_at_failure `{Host} {A} (m : M A) : Prop :=
  ∀ p, ∃ oks,
    Forall succeeded oks ∧
    match (m p).1 with
    | Raised (TransportError e) =>
        ∃ req, p_calls (m p).2 = p_calls p ++ oks ++ [(req, Some e)]
    | _ => p_calls (m p).2 = p_calls p ++ oks
    end.

(** [m] writes nothing to standard error. *)
Definition silent_err `{Host} {A} (m : M A) : Prop :=
  ∀ p, p_stderr (m p).2 = p_stderr p.

(** A host whose every page of threads announces another one. *)
Module EndlessHost.

Definition page : threads_page :=
  {| pg_nodes := [ {| th_isResolved := true; th_comments := [55] |} ];
     pg_hasNextPage := true;
     pg_endCursor := Some (Py.lit "Mw") |}.

Definition endless : Host :=
  {| gh_state := nat;
     gh_error := string;
     gh := λ req n,
       (match req with
        | GraphqlReviewThreads _ _ _ _ => inr (ThreadsAnswer page)
        | _ => SampleHost.forge req
        end, S n);
     py_int := SampleHost.int_ascii;
     json_dumps := SampleHost.dumps_ids;
     unicode_decimal := SampleHost.ascii_decimal |}.

End EndlessHost.

(** [m] only adds to the record of calls. *)
Definition grows `{Host} {A} (m : M A) : Prop :=
  ∀ p, ∃ new, p_calls (m p).2 = p_calls p ++ new.

(** The first thing [m] does with [gh] is the call [req], whatever it ends
    on. *)
Definition calls_first `{Host} {A} (req : request) (m : M A) : Prop :=
  ∀ p, ∃ r more, p_calls (m p).2 = p_calls p ++ (req, r) :: more.

(** * post_pr_comment.py and reply_review_comment.py

    The two scripts that write to the forge.  They read the standard output
    of [gh] as text, so their [gh] answers with a text. *)

Module Write.

(** What the two scripts rely on: the [gh] process given its arguments, and
    from Python's library [json.loads], the subscript of its result, the
    [json.dumps] of the dictionary printed, and the code points
    [str.strip()] removes. *)
Class Shell := {
  sh_state : Type;
  sh_error : Type;
  sh_gh : list Py.str → sh_state → (sh_error + Py.str) * sh_state;
  json : Type;
  json_loads : Py.str → option json;
  json_item : json → Py.str → option json;
  json_dumps_id_url : json → json → Py.str;
  is_space : N → bool
}.

Inductive exn `{Shell} :=
| CalledProcessError (e : sh_error)
| JSONDecodeError
| SubscriptError (key : Py.str)
| IndexError
| SystemExit (code : Z).

Inductive outcome `{Shell} (A : Type) :=
| Done (a : A)
| Raised (e : exn).
Arguments Done {_ _} a.
Arguments Raised {_ _} e.

Record process `{Shell} := Process {
  p_sh : sh_state;
  p_calls : list (list Py.str * option sh_error);
  p_stderr : list stderr_line;
  p_stdout : list Py.str
}.
Arguments Process {_} _ _ _ _.

Definition W `{Shell} (A : Type) : Type := process → outcome A * process.

Definition ret `{Shell} {A} (a : A) : W A := λ p, (Done a, p).

Definition raise `{Shell} {A} (e : exn) : W A := λ p, (Raised e, p).

Definition bind `{Shell} {A B} (m : W A) (k : A → W B) : W B := λ p,
  match m p with
  | (Done a, p') => k a p'
  | (Raised e, p') => (Raised e, p')
  end.

Declare Scope write_scope.
Delimit Scope write_scope with write.
Notation "x <- m ;; k" := (bind m (λ x, k))
  (at level 100, m at next level, right associativity) : write_scope.
Notation "m ;; k" := (bind m (λ _, k))
  (at level 100, right associativity) : write_scope.
Local Open Scope write_scope.

Definition print_stderr `{Shell} (l : stderr_line) : W unit := λ p,
  (Done tt, {| p_sh := p_sh p; p_calls := p_calls p;
               p_stderr := p_stderr p ++ [l]; p_stdout := p_stdout p |}).

Definition print_stdout `{Shell} (s : Py.str) : W unit := λ p,
  (Done tt, {| p_sh := p_sh p; p_calls := p_calls p;
               p_stderr := p_stderr p; p_stdout := p_stdout p ++ [s] |}).

(** [subprocess.run(["gh", ...], capture_output=True, text=True,
    check=True).stdout]. *)
Definition gh_stdout `{Shell} (argv : list Py.str) : W Py.str := λ p,
  let '(r, s) := sh_gh argv (p_sh p) in
  match r with
  | inl e =>
      (Raised (CalledProcessError e),
       {| p_sh := s; p_calls := p_calls p ++ [(argv, Some e)];
          p_stderr := p_stderr p; p_stdout := p_stdout p |})
  | inr out =>
      (Done out,
       {| p_sh := s; p_calls := p_calls p ++ [(argv, None)];
          p_stderr := p_stderr p; p_stdout := p_stdout p |})
  end.

(** [json.loads(text)] and [data[key]]. *)
Definition loads `{Shell} (text : Py.str) : W json :=
  match json_loads text with
  | Some data => ret data
  | None => raise JSONDecodeError
  end.

Definition item `{Shell} (data : json) (key : Py.str) : W json :=
  match json_item data key with
  | Some v => ret v
  | None => raise (SubscriptError key)
  end.

(** [print(json.dumps({"id": data["id"], "url": data["html_url"]},
    ensure_ascii=False))] for the text [out] of the posting call. *)
Definition print_id_url `{Shell} (out : Py.str) : W unit :=
  data <- loads out;;
  i <- item data (Py.lit "id");;
  u <- item data (Py.lit "html_url");;
  print_stdout (json_dumps_id_url i u).

(** The arguments of the call of post_pr_comment.py. *)
Definition post_argv (repo pr_number message : Py.str) : list Py.str :=
  [ Py.lit "api";
    Py.lit "repos/" ++ repo ++ Py.lit "/issues/" ++ pr_number
      ++ Py.lit "/comments";
    Py.lit "--method"; Py.lit "POST";
    Py.lit "--raw-field"; Py.lit "body=" ++ message ].

(** [main] of post_pr_comment.py, from [sys.argv[1:]]. *)
Definition post_main `{Shell} (args : list Py.str) : W unit :=
  match args with
  | [repo; pr_number; message] =>
      out <- gh_stdout (post_argv repo pr_number message);;
      print_id_url out
  | _ =>
      print_stderr UsageDoc;;
      raise (SystemExit 1)
  end.

(** [s.lstrip(chars)] and [s.rstrip(chars)] for a class of code points,
    [s.strip()]. *)
Definition lstrip (cls : N → bool) (s : Py.str) : Py.str :=
  drop_while cls s.

Definition rstrip (cls : N → bool) (s : Py.str) : Py.str :=
  reverse (drop_while cls (reverse s)).

Definition strip `{Shell} (s : Py.str) : Py.str :=
  rstrip is_space (lstrip is_space s).

Definition is_slash (c : N) : bool := (c =? slash)%N.

(** [l[-1]]. *)
Definition last_item `{Shell} {A} (l : list A) : W A :=
  match last l with
  | Some x => ret x
  | None => raise IndexError
  end.

(** [stdout.strip().rstrip("/").split("/")]. *)
Definition url_segments `{Shell} (stdout : Py.str) : list Py.str :=
  split_all slash (rstrip is_slash (strip stdout)).

(** The arguments of the two calls of reply_review_comment.py. *)
Definition lookup_argv (repo comment_id : Py.str) : list Py.str :=
  [ Py.lit "api";
    Py.lit "repos/" ++ repo ++ Py.lit "/pulls/comments/" ++ comment_id;
    Py.lit "--jq"; Py.lit ".pull_request_url" ].

Definition reply_argv (repo pr_number comment_id message : Py.str)
  : list Py.str :=
  [ Py.lit "api";
    Py.lit "repos/" ++ repo ++ Py.lit "/pulls/" ++ pr_number
      ++ Py.lit "/comments/" ++ comment_id ++ Py.lit "/replies";
    Py.lit "--method"; Py.lit "POST";
    Py.lit "--field"; Py.lit "body=" ++ message ].

(** [main] of reply_review_comment.py, from [sys.argv[1:]]. *)
Definition reply_main `{Shell} (args : list Py.str) : W unit :=
  match args with
  | [repo; comment_id; message] =>
      meta <- gh_stdout (lookup_argv repo comment_id);;
      pr_number <- last_item (url_segments meta);;
      out <- gh_stdout (reply_argv repo pr_number comment_id message);;
      print_id_url out
  | _ =>
      print_stderr UsageDoc;;
      raise (SystemExit 1)
  end.

(** The calls made, and the lines printed, between two process states. *)
Definition calls_made `{Shell} (p p' : process)
  : list (list Py.str * option sh_error) :=
  drop (length (p_calls p)) (p_calls p').

Definition printed `{Shell} (p p' : process) : list Py.str :=
  drop (length (p_stdout p)) (p_stdout p').

Definition fresh `{Shell} (s : sh_state) : process :=
  {| p_sh := s; p_calls := []; p_stderr := []; p_stdout := [] |}.

(** ** A scripted shell *)

Definition ascii_space (c : N) : bool :=
  ((c =? 32) || ((9 <=? c) && (c <=? 13)))%N.

(** A forge that answers the lookup with the URL of pull 42 and a post with
    a text; its JSON values are texts, the parsed answer holding [id] and
    [html_url] as its two halves around a comma. *)
Definition forge (argv : list Py.str) : string + Py.str :=
  match argv with
  | [_; _; flag; _] =>
      if decide (flag = Py.lit "--jq")
      then inr (Py.lit "https://api.github.com/repos/owner/repo/pulls/42"
                ++ [10%N])
      else inl "usage"%string
  | [_; _; _; _; _; body] =>
      if decide (body = Py.lit "body=") then inl "HTTP 422"%string
      else inr (Py.lit "1001,https://github.com/owner/repo/pull/42#r1001")
  | _ => inl "usage"%string
  end.

Definition sample : Shell :=
  {| sh_state := nat;
     sh_error := string;
     sh_gh := λ argv n, (forge argv, S n);
     json := Py.str;
     json_loads := λ text,
       match split_all 44 text with
       | [_; _] => Some text
       | _ => None
       end;
     json_item := λ data key,
       match split_all 44 data with
       | [i; u] =>
           if decide (key = Py.lit "id") then Some i
           else if decide (key = Py.lit "html_url") then Some u
           else None
       | _ => None
       end;
     json_dumps_id_url := λ i u, i ++ [44%N] ++ u;
     is_space := ascii_space |}.

End Write.

(** ** A conversation with two authors *)

Module Conversation.

Definition record (id : Z) (parent : option Z) (author body : string)
  : raw_comment :=
  {| rc_id := id;
     rc_user_login := Py.lit author;
     rc_path := Py.lit "src/foo.py";
     rc_line := Some 10;
     rc_original_line := Some 10;
     rc_body := Py.lit body;
     rc_diff_hunk := Some (Py.lit "@@ -8,6 +8,7 @@");
     rc_position := Some 4;
     rc_in_reply_to_id := parent |}.

(** Comment 123 with two answers, an answer (125) to an id no top-level
    record has, and comment 130 that nobody answers. *)
Definition raw : list raw_comment :=
  [ record 123 None "reviewer" "Consider using ...";
    record 124 (Some 123) "dev" "fixed by abc1234";
    record 125 (Some 999) "dev" "which line?";
    record 130 None "reviewer" "Typo";
    record 126 (Some 123) "reviewer" "thanks" ].

End Conversation.

(** * Properties *)

(** ** Insertion-ordered dictionaries *)

Section ODictFacts.
Context {V : Type}.
Implicit Types (d : ODict.t V) (k : Z) (v : V).

Lemma odict_get_set d k k' v :
  ODict.get k' (ODict.set k v d) =
  if decide (k = k') then Some v else ODict.get k' d.
Proof.
  induction d as [|[k0 v0] d IH]; simpl.
  - repeat case_decide; congruence.
  - destruct (decide (k0 = k)) as [->|Hne]; simpl.
    + repeat case_decide; congruence.
    + rewrite IH. repeat case_decide; congruence.
Qed.

Lemma odict_keys_set d k v :
  ODict.keys (ODict.set k v d) =
  if decide (k ∈ ODict.keys d) then ODict.keys d else ODict.keys d ++ [k].
Proof.
  unfold ODict.keys.
  induction d as [|[k0 v0] d IH]; csimpl.
  - done.
  - destruct (decide (k0 = k)) as [->|Hne]; csimpl.
    + rewrite decide_True; [done | left].
    + rewrite IH. destruct (decide (k ∈ d.*1)) as [Hin|Hin].
      * rewrite decide_True; [done | by right].
      * rewrite decide_False; [done |].
        intros [?|?]%elem_of_cons; congruence.
Qed.

Lemma odict_set_NoDup d k v :
  NoDup (ODict.keys d) → NoDup (ODict.keys (ODict.set k v d)).
Proof.
  intros Hnd. rewrite odict_keys_set. case_decide; [done |].
  apply NoDup_app. split_and!; [done | | apply NoDup_singleton].
  intros x Hx ->%list_elem_of_singleton. done.
Qed.

Lemma odict_get_elem_of d k v :
  NoDup (ODict.keys d) → (k, v) ∈ d ↔ ODict.get k d = Some v.
Proof.
  unfold ODict.keys.
  induction d as [|[k0 v0] d IH]; csimpl; intros Hnd.
  - split; [intros []%elem_of_nil | done].
  - apply NoDup_cons in Hnd as [Hk0 Hnd]. rewrite elem_of_cons, (IH Hnd).
    destruct (decide (k0 = k)) as [->|Hne].
    + split; [intros [[= ->]|Hget] | intros [= ->]; by left]; [done |].
      apply IH in Hget; [|done]. exfalso. apply Hk0.
      apply list_elem_of_fmap. by exists (k, v).
    + split; [intros [[= ? ?]|?]; [congruence | done] | by right].
Qed.

End ODictFacts.

(** ** The two dictionaries of the assembler *)

Section Assembler.
Implicit Types (raw : list raw_comment) (c : raw_comment) (k : Z).
Implicit Types (resolved : gset Z).

Lemma separate_snoc raw c :
  separate (raw ++ [c]) = separate_step (separate raw) c.
Proof. unfold separate. by rewrite fold_left_app. Qed.

Lemma top_level_with_snoc k raw c :
  top_level_with k (raw ++ [c]) =
  if decide (rc_in_reply_to_id c = None ∧ rc_id c = k)
  then top_level_with k raw ++ [c] else top_level_with k raw.
Proof.
  unfold top_level_with. rewrite filter_app.
  case_decide.
  - by rewrite filter_cons_True, filter_nil.
  - by rewrite filter_cons_False, filter_nil, app_nil_r.
Qed.

Lemma replies_to_snoc k raw c :
  replies_to k (raw ++ [c]) =
  if decide (rc_in_reply_to_id c = Some k)
  then replies_to k raw ++ [c] else replies_to k raw.
Proof.
  unfold replies_to. rewrite filter_app.
  case_decide.
  - by rewrite filter_cons_True, filter_nil.
  - by rewrite filter_cons_False, filter_nil, app_nil_r.
Qed.

Lemma top_level_NoDup raw : NoDup (ODict.keys (top_level (separate raw))).
Proof.
  induction raw as [|c raw IH] using rev_ind; [constructor |].
  rewrite separate_snoc. unfold separate_step.
  destruct (rc_in_reply_to_id c); simpl; [done |].
  by apply odict_set_NoDup.
Qed.

(** [top_level[k]] after the loop is the last top-level record with id
    [k]. *)
Lemma top_level_get raw k :
  ODict.get k (top_level (separate raw)) = last (top_level_with k raw).
Proof.
  induction raw as [|c raw IH] using rev_ind; [done |].
  rewrite separate_snoc, top_level_with_snoc. unfold separate_step.
  destruct (rc_in_reply_to_id c) as [p|] eqn:Hp; simpl.
  - exact IH.
  - rewrite odict_get_set. destruct (decide (rc_id c = k)) as [Hk|Hk].
    + rewrite decide_True by done. by rewrite last_snoc.
    + rewrite decide_False by (intros [_ ?]; done). done.
Qed.

(** [replies.get(k, [])] after the loop lists the records answering to
    [k], in input order. *)
Lemma replies_get raw k :
  default [] (replies (separate raw) !! k) = reply_of <$> replies_to k raw.
Proof.
  induction raw as [|c raw IH] using rev_ind; [done |].
  rewrite separate_snoc, replies_to_snoc. unfold separate_step.
  destruct (rc_in_reply_to_id c) as [p|] eqn:Hp; simpl.
  - unfold setdefault_append. destruct (decide (p = k)) as [->|Hne].
    + rewrite lookup_insert_eq, decide_True by done. simpl.
      by rewrite fmap_app, IH.
    + rewrite lookup_insert_ne, decide_False by congruence. done.
  - unfold setdefault_nil.
    destruct (replies (separate raw) !! rc_id c) eqn:Hl; [done |].
    destruct (decide (rc_id c = k)) as [<-|Hne].
    + rewrite lookup_insert_eq. rewrite <- IH, Hl. done.
    + by rewrite lookup_insert_ne.
Qed.

Lemma last_top_level_with raw k c :
  last (top_level_with k raw) = Some c ↔ source_of raw k c.
Proof.
  split.
  - induction raw as [|x raw IH] using rev_ind; [done |].
    rewrite top_level_with_snoc. case_decide as Hx.
    + rewrite last_snoc. intros [= ->]. destruct Hx as [Hp Hk].
      exists raw, []. split_and!; try done. by intros d []%elem_of_nil.
    + intros (pre & post & -> & Hp & Hk & Hpost)%IH.
      exists pre, (post ++ [x]). split_and!; try done.
      * by rewrite <- app_assoc.
      * intros d [Hd| ->%list_elem_of_singleton]%elem_of_app Hd0; [eauto |].
        intros Hdk. by apply Hx.
  - intros (pre & post & -> & Hp & Hk & Hpost).
    unfold top_level_with. rewrite filter_app, filter_cons_True by done.
    replace (filter _ post) with (@nil raw_comment).
    + by rewrite last_snoc.
    + symmetry. clear Hp Hk. induction post as [|d post IH]; [done |].
      rewrite filter_cons_False.
      * apply IH. intros d' Hd'. apply Hpost. by right.
      * intros [Hd Hdk]. eapply Hpost; [left | done | done].
Qed.

Lemma elem_of_top_level raw k c :
  (k, c) ∈ top_level (separate raw) ↔ source_of raw k c.
Proof.
  rewrite odict_get_elem_of by apply top_level_NoDup.
  by rewrite top_level_get, last_top_level_with.
Qed.

Lemma source_of_id raw k c : source_of raw k c → rc_id c = k.
Proof. by intros (_ & _ & _ & _ & ? & _). Qed.

Lemma source_of_top raw k c : source_of raw k c → rc_in_reply_to_id c = None.
Proof. by intros (_ & _ & _ & ? & _). Qed.

Lemma source_of_elem_of raw k c : source_of raw k c → c ∈ raw.
Proof.
  intros (pre & post & -> & _). apply elem_of_app. right. left.
Qed.

(** Every top-level id of the input has its record in [top_level]. *)
Lemma source_of_exists raw c :
  c ∈ raw → rc_in_reply_to_id c = None →
  ∃ c', source_of raw (rc_id c) c'.
Proof.
  intros Hin Hp.
  destruct (last (top_level_with (rc_id c) raw)) as [c'|] eqn:Hl.
  - exists c'. by apply last_top_level_with.
  - apply last_None in Hl. exfalso.
    assert (c ∈ top_level_with (rc_id c) raw) as Hc.
    { unfold top_level_with. apply list_elem_of_filter. done. }
    rewrite Hl in Hc. by apply elem_of_nil in Hc.
Qed.

Lemma elem_of_sources raw c :
  c ∈ ODict.values (top_level (separate raw)) ↔ source_of raw (rc_id c) c.
Proof.
  unfold ODict.values. rewrite list_elem_of_fmap. split.
  - intros ([k c'] & -> & Hin). simpl.
    apply elem_of_top_level in Hin.
    by rewrite (source_of_id _ _ _ Hin).
  - intros Hs. exists (rc_id c, c). split; [done |].
    by apply elem_of_top_level.
Qed.

Lemma sources_ids raw :
  rc_id <$> ODict.values (top_level (separate raw)) =
  ODict.keys (top_level (separate raw)).
Proof.
  unfold ODict.values, ODict.keys. rewrite <- list_fmap_compose.
  apply list_fmap_ext. intros i [k c] Hi. simpl.
  eapply source_of_id, elem_of_top_level, list_elem_of_lookup_2, Hi.
Qed.

Lemma review_comments_ids resolved raw :
  rv_id <$> review_comments resolved raw =
  ODict.keys (top_level (separate raw)).
Proof.
  unfold review_comments. cbv zeta.
  rewrite <- list_fmap_compose, <- sources_ids. done.
Qed.

(** An entry of the output is built from the record [top_level] holds for
    its id, and its replies are the records answering to that id. *)
Lemma elem_of_review_comments resolved raw e :
  e ∈ review_comments resolved raw ↔
  ∃ c, source_of raw (rc_id c) c ∧
       e = review_comment_of resolved (replies (separate raw)) c.
Proof.
  unfold review_comments. cbv zeta. rewrite list_elem_of_fmap.
  split; intros (c & H1 & H2); exists c.
  - split; [by apply elem_of_sources | done].
  - split; [done | by apply elem_of_sources].
Qed.

Lemma review_comment_of_replies resolved raw c :
  rv_replies (review_comment_of resolved (replies (separate raw)) c) =
  reply_of <$> replies_to (rc_id c) raw.
Proof. simpl. apply replies_get. Qed.

(** [top_level] does not depend on the records that are replies. *)
Lemma top_level_fold_reply l b b' :
  top_level b = top_level b' →
  top_level (fold_left separate_step l b) =
  top_level (fold_left separate_step l b').
Proof.
  revert b b'. induction l as [|c l IH]; intros b b' Hb; [done |].
  simpl. apply IH. unfold separate_step.
  destruct (rc_in_reply_to_id c); simpl; by rewrite Hb.
Qed.

Lemma top_level_drop_reply pre r post p :
  rc_in_reply_to_id r = Some p →
  top_level (separate (pre ++ r :: post)) = top_level (separate (pre ++ post)).
Proof.
  intros Hp. unfold separate. rewrite !fold_left_app. simpl.
  apply top_level_fold_reply. unfold separate_step at 1. by rewrite Hp.
Qed.

End Assembler.

(** ** The comment tree assembler: the claims *)

Section AssemblerClaims.
Implicit Types (raw : list raw_comment) (c : raw_comment) (k : Z).
Implicit Types (resolved : gset Z) (e : review_comment).

(** C1.  The ids of the output entries are pairwise distinct, so there is
    one output comment with a given id; every top-level record of the input
    has the entry with its id, and every entry comes from a top-level
    record.  The replies list of the entry with id [X] is the list of the
    records of the input whose [in_reply_to_id] is [X], in input order,
    each turned into the Reply with the record's [id], the [login] of its
    [user] as [author], and its [body]: one Reply for each such record, and
    none for any other record.  So a record that answers [X] gives exactly
    one Reply, under the one entry with id [X] and under no other, and no
    record with a null [in_reply_to_id] gives a Reply at all. *)
Theorem replies_grouped_under_parent resolved raw :
  NoDup (rv_id <$> review_comments resolved raw) ∧
  (∀ c, c ∈ raw → rc_in_reply_to_id c = None →
        ∃ e, e ∈ review_comments resolved raw ∧ rv_id e = rc_id c) ∧
  (∀ e, e ∈ review_comments resolved raw →
        (∃ c, c ∈ raw ∧ rc_in_reply_to_id c = None ∧ rc_id c = rv_id e) ∧
        rv_replies e =
          (λ c, {| rp_id := rc_id c;
                   rp_author := rc_user_login c;
                   rp_body := rc_body c |})
            <$> filter (λ c, rc_in_reply_to_id c = Some (rv_id e)) raw) ∧
  (∀ e q, e ∈ review_comments resolved raw → q ∈ rv_replies e →
          ∃ c, c ∈ raw ∧ rc_in_reply_to_id c = Some (rv_id e) ∧
               rp_id q = rc_id c ∧ rp_author q = rc_user_login c ∧
               rp_body q = rc_body c).
Proof.
  split_and!.
  - rewrite review_comments_ids. apply top_level_NoDup.
  - intros c Hin Hp. destruct (source_of_exists raw c Hin Hp) as [c' Hs].
    exists (review_comment_of resolved (replies (separate raw)) c').
    split; [|by apply source_of_id in Hs].
    apply elem_of_review_comments. exists c'. split; [|done].
    by rewrite (source_of_id _ _ _ Hs).
  - intros e (c & Hs & ->)%elem_of_review_comments. split.
    + exists c. eauto using source_of_elem_of, source_of_top.
    + apply review_comment_of_replies.
  - intros e q (c & Hs & ->)%elem_of_review_comments.
    rewrite review_comment_of_replies.
    intros (r & -> & [Hr Hin]%list_elem_of_filter)%list_elem_of_fmap.
    by exists r.
Qed.

Lemma replies_grouped_under_parent_witness :
  let out := review_comments ∅ Conversation.raw in
  NoDup (rv_id <$> out) ∧
  (λ e, (rv_id e, rv_replies e)) <$> out =
  [ (123, [ {| rp_id := 124; rp_author := Py.lit "dev";
               rp_body := Py.lit "fixed by abc1234" |};
            {| rp_id := 126; rp_author := Py.lit "reviewer";
               rp_body := Py.lit "thanks" |} ]);
    (130, []) ].
Proof.
  intros out.
  destruct (replies_grouped_under_parent ∅ Conversation.raw)
    as (Hnd & _ & Hreplies & _).
  split; [exact Hnd |].
  assert (∀ e, e ∈ out →
            (rv_id e, rv_replies e) =
            (rv_id e,
             (λ c, {| rp_id := rc_id c; rp_author := rc_user_login c;
                      rp_body := rc_body c |})
               <$> filter (λ c, rc_in_reply_to_id c = Some (rv_id e))
                     Conversation.raw)) as Heq.
  { intros e He. by rewrite (proj2 (Hreplies e He)). }
  rewrite (Forall_fmap_ext_1 _ _ out (proj2 (Forall_forall _ _) Heq)).
  reflexivity.
Defined.



(** C4.  An entry's [outdated] is true exactly when the [position] of its
    source record (the record [top_level] holds for the entry's id) is
    null, whatever the resolved-id set. *)
Theorem outdated_iff_position_null resolved raw e :
  e ∈ review_comments resolved raw →
  ∃ c, source_of raw (rv_id e) c ∧
       (rv_outdated e = true ↔ rc_position c = None).
Proof.
  intros (c & Hs & ->)%elem_of_review_comments.
  exists c. split; [done |]. simpl. apply bool_decide_eq_true.
Qed.

Lemma outdated_iff_position_null_witness :
  let e := review_comment_of {[55]} (replies (separate Sample.two_threads))
             (Sample.comment 60 None None (Some 42) None) in
  e ∈ review_comments {[55]} Sample.two_threads ∧
  ∃ c, source_of Sample.two_threads (rv_id e) c ∧
       (rv_outdated e = true ↔ rc_position c = None).
Proof.
  assert (review_comment_of {[55]} (replies (separate Sample.two_threads))
            (Sample.comment 60 None None (Some 42) None)
          ∈ review_comments {[55]} Sample.two_threads) as Hin.
  { unfold review_comments. cbv zeta. apply list_elem_of_fmap_2.
    vm_compute. repeat constructor. }
  split; [exact Hin |].
  exact (outdated_iff_position_null _ _ _ Hin).
Defined.

(** What [c.get("line") or c.get("original_line")] leaves in an entry: the
    [line] of the source record when it is an integer other than 0, its
    [original_line] otherwise. *)
Lemma line_or_original_line resolved raw e :
  e ∈ review_comments resolved raw →
  ∃ c, source_of raw (rv_id e) c ∧
       rv_line e = match rc_line c with
                   | Some z => if decide (z = 0) then rc_original_line c
                               else Some z
                   | None => rc_original_line c
                   end.
Proof.
  intros (c & Hs & ->)%elem_of_review_comments.
  exists c. split; [done |]. simpl. unfold Py.or_int, Py.truthy_int.
  destruct (rc_line c) as [z|]; [|done].
  destruct (decide (z = 0)) as [->|Hz]; [done |].
  by apply Z.eqb_neq in Hz as ->.
Qed.

(** C5.  The record with [line] 0 and [original_line] 42 is given the line
    42, where the claim asks for its non-null [line], 0; a record with a
    null [line] and [original_line] 42 is given 42, as the claim says. *)
Theorem line_zero_yields_original_line :
  rc_line <$> Sample.line_zero = [Some 0] ∧
  rv_line <$> review_comments ∅ Sample.line_zero = [Some 42] ∧
  rv_line <$> review_comments ∅ [Sample.comment 7 None None (Some 42) None]
    = [Some 42].
Proof. split_and!; reflexivity. Qed.

(** C6.  A reply whose [in_reply_to_id] is the id of no top-level record
    leaves no trace: the output is the output for the input without it. *)
Theorem orphan_reply_dropped resolved pre r post p :
  rc_in_reply_to_id r = Some p →
  (∀ t, t ∈ pre ++ post → rc_in_reply_to_id t = None → rc_id t ≠ p) →
  review_comments resolved (pre ++ r :: post) =
  review_comments resolved (pre ++ post).
Proof.
  intros Hp Horphan. unfold review_comments. cbv zeta.
  rewrite (top_level_drop_reply pre r post p Hp).
  apply list_fmap_ext. intros i c Hi.
  apply list_elem_of_lookup_2, elem_of_sources in Hi.
  unfold review_comment_of. f_equal. rewrite !replies_get.
  unfold replies_to. rewrite !filter_app, filter_cons_False; [done |].
  rewrite Hp. intros [= ->].
  eapply Horphan; [by eapply source_of_elem_of | by eapply source_of_top |].
  done.
Qed.

Lemma orphan_reply_dropped_witness :
  review_comments {[55]} Sample.with_orphan =
  review_comments {[55]} Sample.two_threads.
Proof.
  apply (orphan_reply_dropped {[55]}
           [Sample.comment 55 None (Some 10) (Some 10) (Some 4)]
           (Sample.comment 61 (Some 99) (Some 3) (Some 3) (Some 1))
           [Sample.comment 56 (Some 55) (Some 10) (Some 10) (Some 4);
            Sample.comment 60 None None (Some 42) None]
           99 eq_refl).
  intros t Ht Htop.
  repeat (apply elem_of_cons in Ht as [-> | Ht]; [by simpl |]).
  by apply elem_of_nil in Ht.
Defined.

(** C7, as the code has it.  The ids of the output entries are pairwise
    distinct, also when the input repeats a top-level id; a top-level
    comment that no record answers has an entry with an empty replies
    list; and no replies list holds the id of its owner, provided no input
    record that answers a top-level comment carries that comment's id. *)
Theorem review_comment_ids_unique resolved raw :
  NoDup (rv_id <$> review_comments resolved raw) ∧
  (∀ c, c ∈ raw → rc_in_reply_to_id c = None →
        replies_to (rc_id c) raw = [] →
        ∃ e, e ∈ review_comments resolved raw ∧
             rv_id e = rc_id c ∧ rv_replies e = []) ∧
  ((∀ r t, r ∈ raw → t ∈ raw → rc_in_reply_to_id t = None →
           rc_in_reply_to_id r = Some (rc_id t) → rc_id r ≠ rc_id t) →
   ∀ e q, e ∈ review_comments resolved raw → q ∈ rv_replies e →
          rp_id q ≠ rv_id e).
Proof.
  split_and!.
  - rewrite review_comments_ids. apply top_level_NoDup.
  - intros c Hin Hp Hnone.
    destruct (source_of_exists raw c Hin Hp) as [c' Hs].
    pose proof (source_of_id _ _ _ Hs) as Hid.
    exists (review_comment_of resolved (replies (separate raw)) c').
    split_and!; [| done |].
    + apply elem_of_review_comments. exists c'. by rewrite Hid.
    + by rewrite review_comment_of_replies, Hid, Hnone.
  - intros Hids e q (c & Hs & ->)%elem_of_review_comments.
    rewrite review_comment_of_replies.
    intros (r & -> & [Hr Hin]%list_elem_of_filter)%list_elem_of_fmap.
    simpl. eapply Hids; eauto using source_of_elem_of, source_of_top.
Qed.

Lemma review_comment_ids_unique_witness :
  NoDup (rv_id <$> review_comments {[55]} Sample.repeated_id) ∧
  ∀ e q, e ∈ review_comments {[55]} Sample.repeated_id →
         q ∈ rv_replies e → rp_id q ≠ rv_id e.
Proof.
  destruct (review_comment_ids_unique {[55]} Sample.repeated_id)
    as (Hnd & _ & Hself).
  split; [exact Hnd |]. apply Hself.
  intros r t Hr Ht Htop Hparent.
  repeat (apply elem_of_cons in Hr as [-> | Hr];
          [repeat (apply elem_of_cons in Ht as [-> | Ht]; [by simpl |]);
           by apply elem_of_nil in Ht |]).
  by apply elem_of_nil in Hr.
Defined.

(** C7 as stated fails: a reply record carrying the id of the comment it
    answers is listed under that comment, so the replies list of entry 5
    holds the id 5. *)
Lemma reply_with_parent_id_listed :
  ∃ e q, e ∈ review_comments ∅ Sample.reply_with_parent_id ∧
         q ∈ rv_replies e ∧ rp_id q = rv_id e.
Proof.
  eexists _, _. split_and!.
  - vm_compute. left.
  - simpl. left.
  - reflexivity.
Qed.

End AssemblerClaims.

(** ** The thread resolution resolver *)

Section Resolver.
Context {host : Host}.

Lemma elem_of_add_resolved x acc thread :
  x ∈ add_resolved acc thread ↔
  x ∈ acc ∨ (th_isResolved thread = true ∧ head (th_comments thread) = Some x).
Proof.
  unfold add_resolved.
  destruct (th_isResolved thread), (th_comments thread) as [|y l]; simpl.
  - split; [by left | by intros [?|[_ ?]]].
  - rewrite elem_of_union, elem_of_singleton. split.
    + intros [->|?]; [by right | by left].
    + intros [?|[_ [= ->]]]; [by right | by left].
  - split; [by left | by intros [?|[? _]]].
  - split; [by left | by intros [?|[? _]]].
Qed.

Lemma elem_of_fold_add_resolved x threads acc :
  x ∈ fold_left add_resolved threads acc ↔
  x ∈ acc ∨ ∃ thread, thread ∈ threads ∧ th_isResolved thread = true ∧
                      head (th_comments thread) = Some x.
Proof.
  revert acc. induction threads as [|t threads IH]; intros acc; simpl.
  - split; [by left | intros [?|(? & []%elem_of_nil & _)]; done].
  - rewrite IH, elem_of_add_resolved. split.
    + intros [[?|[? ?]]|(t' & ? & ? & ?)]; [by left | right..].
      * exists t. split_and!; [left | done..].
      * exists t'. split_and!; [by right | done..].
    + intros [?|(t' & [->|?]%elem_of_cons & ? & ?)]; [by left; left | |].
      * left. by right.
      * right. by exists t'.
Qed.

(** The loop on a host that serves [pages]: one round for each page, the
    resolved threads of all of them added to the set. *)
Lemma resolved_loop_serves owner repo number s cursor pages s' :
  serves owner repo number s cursor pages s' →
  ∀ fuel acc p,
    p_gh p = s → (length pages ≤ fuel)%nat →
    ∃ p', resolved_loop fuel owner repo number cursor acc p =
            (Done (fold_left add_resolved (concat (pg_nodes <$> pages)) acc),
             p') ∧
          p_gh p' = s'.
Proof.
  induction 1 as [s cursor pg s' Hgh Hlast|s cursor pg s1 pgs s' Hgh Hnext _ IH];
    intros [|fuel] acc p Hp Hfuel; simpl in Hfuel; try lia.
  - simpl. unfold bind, run_gh. rewrite Hp, Hgh. simpl.
    rewrite Hlast. simpl. rewrite app_nil_r. eauto.
  - simpl. unfold bind, run_gh. rewrite Hp, Hgh. simpl.
    rewrite Hnext. simpl. rewrite fold_left_app.
    apply IH; [done | lia].
Qed.

(** C2.  On a host that serves a finite sequence of pages, the resolver
    returns, given a round for each page, and the set it returns holds
    exactly the first comment ids of the threads of all pages that are
    resolved and have a comment; a thread without comments adds nothing
    and raises nothing. *)
Theorem resolved_ids_of_all_pages owner repo number pages s' fuel p :
  serves owner repo number (p_gh p) None pages s' →
  (length pages ≤ fuel)%nat →
  ∃ resolved p',
    fetch_resolved_thread_ids fuel owner repo number p = (Done resolved, p') ∧
    p_gh p' = s' ∧
    ∀ x, x ∈ resolved ↔
         ∃ thread, thread ∈ concat (pg_nodes <$> pages) ∧
                   th_isResolved thread = true ∧
                   head (th_comments thread) = Some x.
Proof.
  intros Hserves Hfuel.
  destruct (resolved_loop_serves _ _ _ _ _ _ _ Hserves fuel ∅ p eq_refl Hfuel)
    as (p' & Hrun & Hs').
  eexists _, p'. split_and!; [exact Hrun | exact Hs' |].
  intros x. rewrite elem_of_fold_add_resolved. split; [|by right].
  intros [Hx|?]; [|done]. by apply not_elem_of_empty in Hx.
Qed.

End Resolver.

Lemma resolved_ids_of_all_pages_witness :
  ∃ resolved p',
    @fetch_resolved_thread_ids SampleHost.steady 2
      (Py.lit "owner") (Py.lit "repo") 42 (@fresh SampleHost.steady 0%nat)
      = (Done resolved, p') ∧
    @p_gh SampleHost.steady p' = 2%nat ∧
    ∀ x, x ∈ resolved ↔
         ∃ thread,
           thread ∈ concat (pg_nodes <$> [SampleHost.page1; SampleHost.page2]) ∧
           th_isResolved thread = true ∧
           head (th_comments thread) = Some x.
Proof.
  apply (@resolved_ids_of_all_pages SampleHost.steady); [| simpl; lia].
  eapply (@serves_next SampleHost.steady); [reflexivity | reflexivity |].
  eapply (@serves_last SampleHost.steady); reflexivity.
Defined.

(** ** Failures of the transport *)

Section Failures.
Context {host : Host}.

Lemma surfaces_ret {A} (a : A) : surfaces_failures (ret a).
Proof.
  intros p. exists []. split; [by rewrite app_nil_r |].
  by intros ? ? []%elem_of_nil.
Qed.

Lemma surfaces_raise {A} (e : exn) : surfaces_failures (@raise _ A e).
Proof.
  intros p. exists []. split; [by rewrite app_nil_r |].
  by intros ? ? []%elem_of_nil.
Qed.

Lemma surfaces_out_of_fuel {A} : surfaces_failures (@out_of_fuel _ A).
Proof.
  intros p. exists []. split; [by rewrite app_nil_r |].
  by intros ? ? []%elem_of_nil.
Qed.

Lemma surfaces_print_stderr l : surfaces_failures (print_stderr l).
Proof.
  intros p. exists []. split; [by rewrite app_nil_r |].
  by intros ? ? []%elem_of_nil.
Qed.

Lemma surfaces_print_stdout s : surfaces_failures (print_stdout s).
Proof.
  intros p. exists []. split; [by rewrite app_nil_r |].
  by intros ? ? []%elem_of_nil.
Qed.

Lemma surfaces_run_gh req : surfaces_failures (run_gh req).
Proof.
  intros p. unfold run_gh.
  destruct (gh req (p_gh p)) as [[e|a] s]; simpl.
  - exists [(req, Some e)]. split; [done |].
    by intros ? ? [= _ ->]%list_elem_of_singleton.
  - exists [(req, None)]. split; [done |].
    by intros ? ? [=]%list_elem_of_singleton.
Qed.

Lemma surfaces_bind {A B} (m : M A) (k : A → M B) :
  surfaces_failures m → (∀ a, surfaces_failures (k a)) →
  surfaces_failures (bind m k).
Proof.
  intros Hm Hk p. destruct (Hm p) as (new1 & Hc1 & Hf1).
  unfold bind. destruct (m p) as [[a|e|] p1]; simpl in *.
  - destruct (Hk a p1) as (new2 & Hc2 & Hf2).
    exists (new1 ++ new2). split; [by rewrite Hc2, Hc1, app_assoc |].
    intros req e [Hin|Hin]%elem_of_app; [|by eapply Hf2].
    by specialize (Hf1 _ _ Hin).
  - exists new1. split; [done |].
    intros req e0 Hin. specialize (Hf1 _ _ Hin). by simplify_eq.
  - exists new1. split; [done |].
    intros req e0 Hin. by specialize (Hf1 _ _ Hin).
Qed.

Lemma silent_bind {A B} (m : M A) (k : A → M B) :
  silent m → (∀ a, silent (k a)) → silent (bind m k).
Proof.
  intros Hm Hk p. specialize (Hm p). unfold bind.
  destruct (m p) as [[a|e|] p1]; simpl in *; [|done..].
  by rewrite Hk.
Qed.

Lemma silent_unless_done_bind {A B} (m : M A) (k : A → M B) :
  silent m → (∀ a, silent_unless_done (k a)) →
  silent_unless_done (bind m k).
Proof.
  intros Hm Hk p. specialize (Hm p). unfold bind.
  destruct (m p) as [[a|e|] p1]; simpl in *; [|by right..].
  destruct (Hk a p1) as [?|Hs]; [by left | right]. by rewrite Hs.
Qed.

Lemma silent_run_gh req : silent (run_gh req).
Proof.
  intros p. unfold run_gh. by destruct (gh req (p_gh p)) as [[e|a] s].
Qed.

End Failures.

Create HintDb script.

#[local] Hint Resolve surfaces_ret surfaces_raise surfaces_out_of_fuel
  surfaces_print_stderr surfaces_print_stdout surfaces_run_gh : script.
#[local] Hint Resolve silent_run_gh : script.

Section FailuresOfTheScript.
Context {host : Host}.

Lemma surfaces_as_threads a : surfaces_failures (as_threads a).
Proof. destruct a; simpl; auto with script. Qed.

Lemma surfaces_as_comments a : surfaces_failures (as_comments a).
Proof. destruct a; simpl; auto with script. Qed.

Lemma surfaces_as_issue_comments a : surfaces_failures (as_issue_comments a).
Proof. destruct a; simpl; auto with script. Qed.

Lemma silent_as_threads a : silent (as_threads a).
Proof. by destruct a. Qed.

Lemma silent_as_comments a : silent (as_comments a).
Proof. by destruct a. Qed.

Lemma silent_as_issue_comments a : silent (as_issue_comments a).
Proof. by destruct a. Qed.

Lemma surfaces_resolved_loop fuel owner repo number cursor acc :
  surfaces_failures (resolved_loop fuel owner repo number cursor acc).
Proof.
  revert cursor acc. induction fuel as [|fuel IH]; intros cursor acc; simpl.
  - auto with script.
  - apply surfaces_bind; [auto with script | intros a].
    apply surfaces_bind; [apply surfaces_as_threads | intros threads].
    destruct (negb _); auto with script.
Qed.

Lemma silent_resolved_loop fuel owner repo number cursor acc :
  silent (resolved_loop fuel owner repo number cursor acc).
Proof.
  revert cursor acc. induction fuel as [|fuel IH]; intros cursor acc; simpl.
  - done.
  - apply silent_bind; [auto with script | intros a].
    apply silent_bind; [apply silent_as_threads | intros threads].
    by destruct (negb _).
Qed.

Lemma surfaces_fetch_pr_comments fuel repo number :
  surfaces_failures (fetch_pr_comments fuel repo number).
Proof.
  unfold fetch_pr_comments.
  apply surfaces_bind; [|intros names].
  { unfold unpack2. destruct (Py.split1 _ _) as [|? [|? [|]]];
      auto with script. }
  apply surfaces_bind; [auto with script | intros pr_data].
  apply surfaces_bind; [|intros n].
  { unfold int_of. destruct (py_int number); auto with script. }
  apply surfaces_bind; [apply surfaces_resolved_loop | intros resolved_ids].
  apply surfaces_bind; [auto with script | intros a_review].
  apply surfaces_bind; [apply surfaces_as_comments | intros raw_review].
  apply surfaces_bind; [auto with script | intros a_issue].
  apply surfaces_bind; [apply surfaces_as_issue_comments | intros raw_issue].
  auto with script.
Qed.

Lemma silent_fetch_pr_comments fuel repo number :
  silent (fetch_pr_comments fuel repo number).
Proof.
  unfold fetch_pr_comments.
  apply silent_bind; [|intros names].
  { unfold unpack2. by destruct (Py.split1 _ _) as [|? [|? [|]]]. }
  apply silent_bind; [auto with script | intros pr_data].
  apply silent_bind; [|intros n].
  { unfold int_of. by destruct (py_int number). }
  apply silent_bind; [apply silent_resolved_loop | intros resolved_ids].
  apply silent_bind; [auto with script | intros a_review].
  apply silent_bind; [apply silent_as_comments | intros raw_review].
  apply silent_bind; [auto with script | intros a_issue].
  apply silent_bind; [apply silent_as_issue_comments | intros raw_issue].
  done.
Qed.

Lemma surfaces_parse_pr_ref args : surfaces_failures (parse_pr_ref args).
Proof.
  unfold parse_pr_ref. destruct args as [|url [|a1 [|]]].
  - apply surfaces_bind; auto with script.
  - destruct (Re.match_ _ _); [auto with script |].
    apply surfaces_bind; auto with script.
  - auto with script.
  - apply surfaces_bind; auto with script.
Qed.

Lemma silent_parse_pr_ref args : silent (parse_pr_ref args).
Proof.
  unfold parse_pr_ref. destruct args as [|url [|a1 [|]]]; try done.
  by destruct (Re.match_ _ _).
Qed.

Lemma surfaces_main fuel args : surfaces_failures (main fuel args).
Proof.
  unfold main. destruct args as [|a0 args].
  - apply surfaces_bind; auto with script.
  - apply surfaces_bind; [apply surfaces_parse_pr_ref | intros ref].
    apply surfaces_bind; [apply surfaces_fetch_pr_comments | intros data].
    auto with script.
Qed.

Lemma silent_unless_done_main fuel args :
  silent_unless_done (main fuel args).
Proof.
  unfold main. destruct args as [|a0 args].
  - intros p. by right.
  - apply silent_unless_done_bind; [apply silent_parse_pr_ref | intros ref].
    apply silent_unless_done_bind;
      [apply silent_fetch_pr_comments | intros data].
    intros p. left. by exists tt.
Qed.

Lemma calls_made_app (p p' : process) new :
  p_calls p' = p_calls p ++ new → calls_made p p' = new.
Proof. intros Hc. unfold calls_made. by rewrite Hc, drop_app_length. Qed.

(** C8.  Whenever a call to [gh] fails during [fetch_pr_comments], the
    function raises the error of that call and returns no document; and
    whenever one fails during [main], the process ends on that error
    with nothing written to standard output. *)
Theorem transport_failure_aborts fuel p req e :
  (∀ repo number,
     (req, Some e) ∈ calls_made p (fetch_pr_comments fuel repo number p).2 →
     (fetch_pr_comments fuel repo number p).1 = Raised (TransportError e)) ∧
  (∀ args,
     (req, Some e) ∈ calls_made p (main fuel args p).2 →
     (main fuel args p).1 = Raised (TransportError e) ∧
     p_stdout (main fuel args p).2 = p_stdout p).
Proof.
  split.
  - intros repo number Hin.
    destruct (surfaces_fetch_pr_comments fuel repo number p)
      as (new & Hcalls & Hfail).
    rewrite (calls_made_app _ _ _ Hcalls) in Hin. eauto.
  - intros args Hin.
    destruct (surfaces_main fuel args p) as (new & Hcalls & Hfail).
    rewrite (calls_made_app _ _ _ Hcalls) in Hin.
    pose proof (Hfail _ _ Hin) as Hraised. split; [done |].
    destruct (silent_unless_done_main fuel args p) as [[a Ha]|?]; [|done].
    congruence.
Qed.

End FailuresOfTheScript.

Lemma transport_failure_aborts_witness :
  let p := @fresh SampleHost.failing 0%nat in
  let run := @main SampleHost.failing 5 [Py.lit "owner/repo"; Py.lit "42"] p in
  (GetPullComments (Py.lit "owner/repo") (Py.lit "42"),
   Some ("HTTP 502"%string : @gh_error SampleHost.failing))
    ∈ calls_made p run.2 ∧
  run.1 = Raised (TransportError ("HTTP 502"%string : @gh_error SampleHost.failing)) ∧
  p_stdout run.2 = [].
Proof.
  intros p run.
  assert ((GetPullComments (Py.lit "owner/repo") (Py.lit "42"),
           Some ("HTTP 502"%string : @gh_error SampleHost.failing))
            ∈ calls_made p run.2) as Hin.
  { vm_compute. repeat constructor. }
  split; [exact Hin |].
  exact (proj2 (@transport_failure_aborts SampleHost.failing 5 p _ _)
           _ Hin).
Defined.

(** ** The pattern of parse_pr_ref *)

Section Regex.
Context {A : Type}.
Implicit Types (cls : N → bool) (s run rest : Py.str).
Implicit Types (k : Py.str → option A).

Lemma strip_prefix_app l s : Re.strip_prefix l (l ++ s) = Some s.
Proof.
  induction l as [|c l IH]; simpl; [by destruct s |].
  by rewrite decide_True.
Qed.

Lemma strip_prefix_Some l s s' : Re.strip_prefix l s = Some s' → s = l ++ s'.
Proof.
  revert s. induction l as [|c l IH]; intros [|d s]; simpl; try congruence.
  case_decide; [|done]. intros ?%IH. congruence.
Qed.

Lemma plus_stops cls rest k :
  (∀ c, head rest = Some c → cls c = false) → Re.plus cls rest k = None.
Proof.
  destruct rest as [|c rest]; simpl; [done |].
  intros Hc. by rewrite (Hc c).
Qed.

(** The longest run is the one [cls+] keeps when what follows matches. *)
Lemma plus_greedy cls run rest k a :
  run ≠ [] → Forall (λ c, cls c = true) run →
  (∀ c, head rest = Some c → cls c = false) →
  k rest = Some a →
  Re.plus cls (run ++ rest) k = Some a.
Proof.
  intros Hne Hrun Hrest Hk.
  induction Hrun as [|c run Hc Hrun IH]; [done |].
  simpl. rewrite Hc. destruct run as [|c' run].
  - simpl. by rewrite plus_stops.
  - by rewrite IH.
Qed.

(** A match of [cls+] splits the text into a run of the class and a rest
    on which the continuation matches. *)
Lemma plus_inv cls s k a :
  Re.plus cls s k = Some a →
  ∃ run rest, s = run ++ rest ∧ run ≠ [] ∧
              Forall (λ c, cls c = true) run ∧ k rest = Some a.
Proof.
  induction s as [|c s IH]; simpl; [done |].
  destruct (cls c) eqn:Hc; [|done].
  destruct (Re.plus cls s k) as [a'|] eqn:Hplus.
  - intros [= ->]. destruct (IH eq_refl) as (run & rest & -> & _ & Hrun & Hk).
    exists (c :: run), rest. split_and!; try done. by constructor.
  - intros Hk. exists [c], s. split_and!; try done. by repeat constructor.
Qed.

Lemma take_drop_while cls s : take_while cls s ++ drop_while cls s = s.
Proof.
  induction s as [|c s IH]; simpl; [done |].
  destruct (cls c); simpl; [by rewrite IH | done].
Qed.

Lemma take_while_Forall cls s : Forall (λ c, cls c = true) (take_while cls s).
Proof.
  induction s as [|c s IH]; simpl; [constructor |].
  destruct (cls c) eqn:Hc; by constructor.
Qed.

Lemma drop_while_head cls s c :
  head (drop_while cls s) = Some c → cls c = false.
Proof.
  induction s as [|d s IH]; simpl; [done |].
  destruct (cls d) eqn:Hd; [done |]. simpl. congruence.
Qed.

Lemma take_consumed (s rest : Py.str) :
  take (length (s ++ rest) - length rest) (s ++ rest) = s.
Proof.
  rewrite length_app.
  replace (length s + length rest - length rest)%nat with (length s) by lia.
  by rewrite take_app_length.
Qed.

End Regex.

Section TwoGroups.
Variables (l1 l2 l3 : Py.str) (c1 c2 c3 : N → bool).
Implicit Types (a b n rest : Py.str).

Lemma match_two_groups a b n rest :
  a ≠ [] → Forall (λ c, c1 c = true) a →
  b ≠ [] → Forall (λ c, c2 c = true) b →
  n ≠ [] → Forall (λ c, c3 c = true) n →
  (∀ c, head (l2 ++ b ++ l3 ++ n ++ rest) = Some c → c1 c = false) →
  (∀ c, head (l3 ++ n ++ rest) = Some c → c2 c = false) →
  (∀ c, head rest = Some c → c3 c = false) →
  Re.match_ (two_groups l1 l2 l3 c1 c2 c3)
    (l1 ++ a ++ l2 ++ b ++ l3 ++ n ++ rest)
  = Some [a ++ l2 ++ b; n].
Proof.
  intros Ha Hac Hb Hbc Hn Hnc H1 H2 H3.
  unfold Re.match_, two_groups. cbn [Re.go].
  rewrite strip_prefix_app.
  eapply plus_greedy; [done..|]. cbn beta.
  rewrite strip_prefix_app.
  eapply plus_greedy; [done..|]. cbn beta.
  rewrite strip_prefix_app.
  eapply plus_greedy; [done..|]. cbn beta.
  rewrite take_consumed.
  replace (a ++ l2 ++ b ++ l3 ++ n ++ rest)
    with ((a ++ l2 ++ b) ++ (l3 ++ n ++ rest))
    by (by rewrite <- !app_assoc).
  by rewrite take_consumed.
Qed.

Lemma match_two_groups_inv s m :
  Re.match_ (two_groups l1 l2 l3 c1 c2 c3) s = Some m →
  ∃ a b n rest,
    s = l1 ++ a ++ l2 ++ b ++ l3 ++ n ++ rest ∧
    a ≠ [] ∧ Forall (λ c, c1 c = true) a ∧
    b ≠ [] ∧ Forall (λ c, c2 c = true) b ∧
    n ≠ [] ∧ Forall (λ c, c3 c = true) n.
Proof.
  unfold Re.match_, two_groups. cbn [Re.go].
  destruct (Re.strip_prefix l1 s) as [s1|] eqn:E1; [|done].
  apply strip_prefix_Some in E1 as ->.
  intros (a & r1 & -> & Ha & Hac & Hk1)%plus_inv.
  destruct (Re.strip_prefix l2 r1) as [r2|] eqn:E2; [|done].
  apply strip_prefix_Some in E2 as ->.
  apply plus_inv in Hk1 as (b & r3 & -> & Hb & Hbc & Hk2).
  destruct (Re.strip_prefix l3 r3) as [r4|] eqn:E3; [|done].
  apply strip_prefix_Some in E3 as ->.
  apply plus_inv in Hk2 as (n & rest & -> & Hn & Hnc & _).
  by exists a, b, n, rest.
Qed.

End TwoGroups.

Section ParsePrRef.
Context {host : Host}.

Lemma not_slash_true c : not_slash c = true ↔ c ≠ slash.
Proof.
  unfold not_slash. rewrite negb_true_iff. apply N.eqb_neq.
Qed.

Lemma not_slash_Forall (s : Py.str) :
  Forall (λ c, not_slash c = true) s ↔ Forall (λ c, c ≠ slash) s.
Proof. apply Forall_iff. intros c. apply not_slash_true. Qed.

(** A text of the accepted form matches, with [owner/repo] and the number
    as its groups. *)
Lemma match_pr_url url owner repo number rest :
  github_pr_prefix url owner repo number rest →
  Re.match_ pr_url_pattern url = Some [owner ++ [slash] ++ repo; number].
Proof.
  intros (-> & Ho & Hos & Hr & Hrs & Hn & Hns & Hrest).
  apply (match_two_groups (Py.lit "https://github.com/") [slash]
           (Py.lit "/pull/") not_slash not_slash unicode_decimal);
    try done; try by apply not_slash_Forall.
  - by intros c [= <-].
  - by intros c [= <-].
Qed.

(** A text that matches is of the accepted form. *)
Lemma match_pr_url_inv url m :
  Re.match_ pr_url_pattern url = Some m →
  ∃ owner repo number rest, github_pr_prefix url owner repo number rest.
Proof.
  intros (owner & repo & number & rest & -> & Ho & Hos & Hr & Hrs & Hn & Hns)
    %(match_two_groups_inv (Py.lit "https://github.com/") [slash]
        (Py.lit "/pull/") not_slash not_slash unicode_decimal).
  exists owner, repo, (number ++ take_while unicode_decimal rest),
    (drop_while unicode_decimal rest).
  split_and!; try done; try by apply not_slash_Forall.
  - by rewrite <- (app_assoc number), take_drop_while.
  - by destruct number.
  - apply Forall_app. split; [done | apply take_while_Forall].
  - apply drop_while_head.
Qed.

(** C9, as the code has it.  An argument that starts with
    [https://github.com/<owner>/<repo>/pull/<number>] is parsed to
    [owner/repo] and the number, the longest run of digits there, whatever
    follows; for any other single argument [main] writes the error to
    standard error and exits with status 1, having called [gh] not once and
    printed nothing. *)
Theorem parse_pr_ref_url fuel url p :
  (∀ owner repo number rest,
     github_pr_prefix url owner repo number rest →
     parse_pr_ref [url] p = (Done (owner ++ [slash] ++ repo, number), p)) ∧
  ((∀ owner repo number rest, ¬ github_pr_prefix url owner repo number rest) →
   ∃ p', main fuel [url] p = (Raised (SystemExit 1), p') ∧
         exit_status (main fuel [url] p).1 = Some 1 ∧
         p_stderr p' =
           p_stderr p ++ [ErrText (Py.lit "Error: Cannot parse PR URL: " ++ url)] ∧
         calls_made p p' = [] ∧ p_gh p' = p_gh p ∧ p_stdout p' = p_stdout p).
Proof.
  split.
  - intros owner repo number rest Hform. unfold parse_pr_ref.
    by rewrite (match_pr_url _ _ _ _ _ Hform).
  - intros Hnone. unfold main, parse_pr_ref.
    destruct (Re.match_ pr_url_pattern url) as [m|] eqn:Hm.
    { destruct (match_pr_url_inv _ _ Hm) as (o & r & n & rest & Hform).
      by destruct (Hnone o r n rest). }
    eexists. split; [reflexivity |]. simpl. split_and!; try done.
    unfold calls_made. simpl. apply drop_all.
Qed.

End ParsePrRef.

Lemma parse_pr_ref_url_witness :
  let p := @fresh SampleHost.steady 0%nat in
  @parse_pr_ref SampleHost.steady
    [Py.lit "https://github.com/owner/repo/pull/42/files"] p
  = (Done (Py.lit "owner/repo", Py.lit "42"), p) ∧
  ∃ p', @main SampleHost.steady 5 [Py.lit "https://github.com/owner/repo/42"] p
        = (Raised (SystemExit 1), p') ∧
        @calls_made SampleHost.steady p p' = [].
Proof.
  intros p. split.
  - apply (proj1 (@parse_pr_ref_url SampleHost.steady 5
                    (Py.lit "https://github.com/owner/repo/pull/42/files") p)
             (Py.lit "owner") (Py.lit "repo") (Py.lit "42") (Py.lit "/files")).
    split_and!; try done; try (repeat constructor; discriminate).
    by intros c [= <-].
  - destruct (proj2 (@parse_pr_ref_url SampleHost.steady 5
                       (Py.lit "https://github.com/owner/repo/42") p))
      as (p' & Hrun & _ & _ & Hcalls & _).
    + intros owner repo number rest Hform.
      apply (@match_pr_url SampleHost.steady) in Hform.
      vm_compute in Hform. discriminate Hform.
    + by exists p'.
Defined.

(** C9 as stated fails twice.  A URL of the specification's form on
    another host is refused; and an argument that is not of that form, with
    text after the number, is accepted and the API is called. *)
Lemma pr_url_form_differs :
  let p := @fresh SampleHost.steady 0%nat in
  (@spec_pr_url SampleHost.steady (Py.lit "https://gitlab.com/owner/repo/pull/42")
   = Some (Py.lit "gitlab.com", Py.lit "owner/repo", Py.lit "42") ∧
   (@parse_pr_ref SampleHost.steady
      [Py.lit "https://gitlab.com/owner/repo/pull/42"] p).1
   = Raised (SystemExit 1)) ∧
  (@spec_pr_url SampleHost.steady (Py.lit "https://github.com/owner/repo/pull/42abc")
   = None ∧
   (@main SampleHost.steady 5
      [Py.lit "https://github.com/owner/repo/pull/42abc"] p).1 = Done tt ∧
   length (@calls_made SampleHost.steady p
             (@main SampleHost.steady 5
                [Py.lit "https://github.com/owner/repo/pull/42abc"] p).2)
   = 5%nat).
Proof. intros p. split_and!; vm_compute; reflexivity. Qed.

(** ** Two runs against an unchanged PR *)

Section Determinism.
Context {host : Host}.

Lemma blind_const {A} (o : outcome A) : state_blind (λ p, (o, p)).
Proof.
  intros p1 p2. split; [done |]. exists []. by rewrite !app_nil_r.
Qed.

Lemma blind_print_stderr l : state_blind (print_stderr l).
Proof.
  intros p1 p2. split; [done |]. exists []. by rewrite !app_nil_r.
Qed.

Lemma blind_print_stdout s : state_blind (print_stdout s).
Proof. intros p1 p2. split; [done |]. by exists [s]. Qed.

Lemma blind_bind {A B} (m : M A) (k : A → M B) :
  state_blind m → (∀ a, state_blind (k a)) → state_blind (bind m k).
Proof.
  intros Hm Hk p1 p2. destruct (Hm p1 p2) as (Ho & out & Hout1 & Hout2).
  unfold bind.
  destruct (m p1) as [o1 q1], (m p2) as [o2 q2]. simpl in *. subst o2.
  destruct o1 as [a|e|]; simpl; [|by eauto..].
  destruct (Hk a q1 q2) as (Ho' & out' & Hout1' & Hout2').
  split; [done |]. exists (out ++ out').
  by rewrite Hout1', Hout2', Hout1, Hout2, <- !app_assoc.
Qed.

Section Stable.
Hypothesis Hstable : stable_snapshot.

Lemma blind_run_gh req : state_blind (run_gh req).
Proof.
  intros p1 p2. unfold run_gh.
  pose proof (Hstable req (p_gh p1) (p_gh p2)) as Hsame.
  destruct (gh req (p_gh p1)) as [r1 s1], (gh req (p_gh p2)) as [r2 s2].
  simpl in Hsame. subst r2.
  destruct r1; simpl; (split; [done |]); exists []; by rewrite !app_nil_r.
Qed.

Lemma blind_resolved_loop fuel owner repo number cursor acc :
  state_blind (resolved_loop fuel owner repo number cursor acc).
Proof.
  revert cursor acc. induction fuel as [|fuel IH]; intros cursor acc; simpl.
  - apply (blind_const OutOfFuel).
  - apply blind_bind; [apply blind_run_gh | intros a].
    apply blind_bind; [destruct a; apply blind_const | intros threads].
    destruct (negb _); [apply blind_const | apply IH].
Qed.

Lemma blind_fetch_pr_comments fuel repo number :
  state_blind (fetch_pr_comments fuel repo number).
Proof.
  unfold fetch_pr_comments.
  apply blind_bind; [|intros names].
  { unfold unpack2. destruct (Py.split1 _ _) as [|? [|? [|]]];
      apply blind_const. }
  apply blind_bind; [apply blind_run_gh | intros pr_data].
  apply blind_bind; [|intros n].
  { unfold int_of. destruct (py_int number); apply blind_const. }
  apply blind_bind; [apply blind_resolved_loop | intros resolved_ids].
  apply blind_bind; [apply blind_run_gh | intros a_review].
  apply blind_bind; [destruct a_review; apply blind_const | intros raw_review].
  apply blind_bind; [apply blind_run_gh | intros a_issue].
  apply blind_bind; [destruct a_issue; apply blind_const | intros raw_issue].
  apply blind_const.
Qed.

Lemma blind_parse_pr_ref args : state_blind (parse_pr_ref args).
Proof.
  unfold parse_pr_ref. destruct args as [|url [|a1 [|]]].
  - apply blind_bind; [apply blind_print_stderr | intros _].
    apply blind_const.
  - destruct (Re.match_ _ _); [apply blind_const |].
    apply blind_bind; [apply blind_print_stderr | intros _].
    apply blind_const.
  - apply blind_const.
  - apply blind_bind; [apply blind_print_stderr | intros _].
    apply blind_const.
Qed.

Lemma blind_main fuel args : state_blind (main fuel args).
Proof.
  unfold main. destruct args as [|a0 args].
  - apply blind_bind; [apply blind_print_stderr | intros _].
    apply blind_const.
  - apply blind_bind; [apply blind_parse_pr_ref | intros ref].
    apply blind_bind; [apply blind_fetch_pr_comments | intros data].
    apply blind_print_stdout.
Qed.

End Stable.

Lemma printed_app (p p' : process) out :
  p_stdout p' = p_stdout p ++ out → printed p p' = out.
Proof. intros Hout. unfold printed. by rewrite Hout, drop_app_length. Qed.

(** C10.  When the answers of [gh] do not depend on its state, two runs,
    from whatever process states, end alike: [fetch_pr_comments] returns
    the same document (or raises the same exception) and [main] prints the
    same serialisation of it. *)
Theorem aggregation_deterministic fuel p1 p2 :
  stable_snapshot →
  (∀ repo number,
     (fetch_pr_comments fuel repo number p1).1 =
     (fetch_pr_comments fuel repo number p2).1) ∧
  (∀ args,
     (main fuel args p1).1 = (main fuel args p2).1 ∧
     printed p1 (main fuel args p1).2 = printed p2 (main fuel args p2).2).
Proof.
  intros Hstable. split.
  - intros repo number.
    apply (blind_fetch_pr_comments Hstable fuel repo number p1 p2).
  - intros args.
    destruct (blind_main Hstable fuel args p1 p2) as (Ho & out & H1 & H2).
    split; [done |]. by rewrite (printed_app _ _ _ H1), (printed_app _ _ _ H2).
Qed.

End Determinism.

Lemma aggregation_deterministic_witness :
  let args := [Py.lit "https://github.com/owner/repo/pull/42"] in
  let p := @fresh SampleHost.steady 0%nat in
  let first := @main SampleHost.steady 5 args p in
  let second := @main SampleHost.steady 5 args first.2 in
  @stable_snapshot SampleHost.steady ∧
  first.1 = second.1 ∧
  @printed SampleHost.steady p first.2
  = @printed SampleHost.steady first.2 second.2.
Proof.
  intros args p first second.
  assert (@stable_snapshot SampleHost.steady) as Hstable
    by (intros req s1 s2; reflexivity).
  split; [exact Hstable |].
  exact (proj2 (@aggregation_deterministic SampleHost.steady 5 p first.2
                  Hstable) args).
Defined.

(** * Further properties *)

(** ** The assembler as a function of its input *)

Section AssemblerMore.
Implicit Types (raw : list raw_comment) (c : raw_comment) (k : Z).
Implicit Types (resolved : gset Z) (e : review_comment).

Lemma review_comment_of_entry_of resolved raw c :
  review_comment_of resolved (replies (separate raw)) c = entry_of resolved raw c.
Proof. unfold review_comment_of, entry_of. by rewrite replies_get. Qed.

Lemma review_comments_entry_of resolved raw :
  review_comments resolved raw =
  entry_of resolved raw <$> ODict.values (top_level (separate raw)).
Proof.
  unfold review_comments. cbv zeta. apply list_fmap_ext.
  intros i c _. apply review_comment_of_entry_of.
Qed.

(** X1.  The output holds exactly the entries built from the records
    [top_level] retains: for each top-level id the last top-level record of
    the input with that id, all of whose fields the entry takes (a missing
    [diff_hunk] becoming the empty text), with the replies to that id. *)
Theorem review_comments_last_record_wins resolved raw e :
  e ∈ review_comments resolved raw ↔
  ∃ c, source_of raw (rc_id c) c ∧ e = entry_of resolved raw c.
Proof.
  rewrite elem_of_review_comments. split; intros (c & Hs & ->); exists c;
    (split; [done |]); by rewrite review_comment_of_entry_of.
Qed.

Lemma first_seen_elem_of (l : list Z) x : x ∈ first_seen l ↔ x ∈ l.
Proof.
  induction l as [|y l IH]; simpl; [done |].
  rewrite !elem_of_cons, list_elem_of_filter, IH.
  destruct (decide (x = y)) as [->|Hne]; [by split; left |].
  split; [intros [?|[_ ?]]; [by left | by right]
         | intros [?|?]; [by left | by right]].
Qed.

Lemma filter_snoc_ne (l : list Z) x y :
  filter (λ z, z ≠ y) (l ++ [x]) =
  if decide (x = y) then filter (λ z, z ≠ y) l
  else filter (λ z, z ≠ y) l ++ [x].
Proof.
  rewrite filter_app. destruct (decide (x = y)) as [->|Hne].
  - rewrite filter_cons_False by (by intros ?). by rewrite filter_nil, app_nil_r.
  - by rewrite filter_cons_True, filter_nil.
Qed.

Lemma first_seen_snoc (l : list Z) x :
  first_seen (l ++ [x]) =
  if decide (x ∈ l) then first_seen l else first_seen l ++ [x].
Proof.
  induction l as [|y l IH]; simpl; [done |].
  rewrite IH. destruct (decide (x = y)) as [->|Hne].
  - rewrite (decide_True (P := y ∈ y :: l)) by left.
    destruct (decide (y ∈ l)); [done |].
    by rewrite filter_snoc_ne, decide_True.
  - destruct (decide (x ∈ l)) as [Hin|Hin].
    + rewrite decide_True; [done | by right].
    + rewrite decide_False by (intros [?|?]%elem_of_cons; done).
      by rewrite filter_snoc_ne, decide_False.
Qed.

Lemma first_seen_NoDup (l : list Z) : NoDup l → first_seen l = l.
Proof.
  induction 1 as [|x l Hx Hnd IH]; simpl; [done |].
  rewrite IH. f_equal. clear IH Hnd.
  induction l as [|y l IH]; [done |].
  rewrite filter_cons_True.
  - f_equal. apply IH. intros ?. apply Hx. by right.
  - intros ->. apply Hx. left.
Qed.

Lemma top_level_records_snoc raw c :
  top_level_records (raw ++ [c]) =
  if decide (rc_in_reply_to_id c = None) then top_level_records raw ++ [c]
  else top_level_records raw.
Proof.
  unfold top_level_records. rewrite filter_app. case_decide.
  - by rewrite filter_cons_True, filter_nil.
  - by rewrite filter_cons_False, filter_nil, app_nil_r.
Qed.

Lemma top_level_keys raw :
  ODict.keys (top_level (separate raw)) =
  first_seen (rc_id <$> top_level_records raw).
Proof.
  induction raw as [|c raw IH] using rev_ind; [done |].
  rewrite separate_snoc, top_level_records_snoc. unfold separate_step.
  destruct (rc_in_reply_to_id c) as [p|] eqn:Hp; simpl.
  - exact IH.
  - rewrite odict_keys_set, fmap_app.
    change (rc_id <$> [c]) with [rc_id c]. rewrite first_seen_snoc, IH.
    destruct (decide (rc_id c ∈ rc_id <$> top_level_records raw)) as [Hin|Hin].
    + rewrite decide_True; [done | by apply first_seen_elem_of].
    + rewrite decide_False; [done | by rewrite first_seen_elem_of].
Qed.

(** X2.  The entries come in the order in which their ids first occur
    among the top-level records of the input. *)
Theorem review_comments_in_first_seen_order resolved raw :
  rv_id <$> review_comments resolved raw =
  first_seen (rc_id <$> top_level_records raw).
Proof. by rewrite review_comments_ids, top_level_keys. Qed.

Lemma top_level_values_NoDup raw :
  NoDup (rc_id <$> top_level_records raw) →
  ODict.values (top_level (separate raw)) = top_level_records raw.
Proof.
  induction raw as [|c raw IH] using rev_ind; [done |].
  rewrite separate_snoc, top_level_records_snoc. unfold separate_step.
  destruct (rc_in_reply_to_id c) as [p|] eqn:Hp; simpl; [exact IH |].
  rewrite fmap_app. change (rc_id <$> [c]) with [rc_id c].
  intros [Hnd [Hfresh _]]%NoDup_app.
  specialize (IH Hnd). unfold ODict.values in *.
  assert (rc_id c ∉ ODict.keys (top_level (separate raw))) as Hkey.
  { rewrite top_level_keys, first_seen_elem_of. intros Hin.
    apply (Hfresh _ Hin). left. }
  clear Hfresh Hnd. revert IH Hkey. unfold ODict.keys.
  generalize (top_level_records raw). generalize (top_level (separate raw)).
  intros d. induction d as [|[k v] d IHd]; intros l Hl Hkey; csimpl in *.
  - by subst l.
  - destruct l as [|v' l]; [done |]. injection Hl as -> Hl.
    rewrite decide_False by (intros ->; apply Hkey; left).
    csimpl. f_equal. apply IHd; [done |]. intros ?. apply Hkey. by right.
Qed.

(** X3.  When the top-level records of the input have pairwise distinct
    ids, the output is the list of their entries, one for each, in input
    order, wherever the replies stand among them. *)
Theorem review_comments_of_distinct_ids resolved raw :
  NoDup (rc_id <$> top_level_records raw) →
  review_comments resolved raw =
  entry_of resolved raw <$> top_level_records raw.
Proof.
  intros Hnd. by rewrite review_comments_entry_of, top_level_values_NoDup.
Qed.

Lemma review_comments_of_distinct_ids_witness :
  review_comments {[55]} Sample.with_orphan =
  entry_of {[55]} Sample.with_orphan <$> top_level_records Sample.with_orphan.
Proof.
  apply review_comments_of_distinct_ids.
  refine (bool_decide_unpack _ _). vm_compute. exact I.
Defined.

(** X4.  Only the top-level ids are looked up in the resolved-id set: two
    sets that agree on them give the same output, so an id in the set that
    belongs to a reply or to no record at all changes nothing. *)
Theorem resolved_ids_matter_on_top_level_only resolved1 resolved2 raw :
  (∀ c, c ∈ raw → rc_in_reply_to_id c = None →
        (rc_id c ∈ resolved1 ↔ rc_id c ∈ resolved2)) →
  review_comments resolved1 raw = review_comments resolved2 raw.
Proof.
  intros Hagree. unfold review_comments. cbv zeta.
  apply list_fmap_ext. intros i c Hi.
  apply list_elem_of_lookup_2, elem_of_sources in Hi.
  unfold review_comment_of. f_equal.
  apply bool_decide_ext, Hagree;
    eauto using source_of_elem_of, source_of_top.
Qed.

Lemma resolved_ids_matter_on_top_level_only_witness :
  review_comments {[55; 56; 999]} Sample.two_threads =
  review_comments {[55]} Sample.two_threads.
Proof.
  apply resolved_ids_matter_on_top_level_only.
  intros c Hc Htop.
  repeat (apply elem_of_cons in Hc as [-> | Hc];
          [first [discriminate Htop
                 | refine (bool_decide_unpack _ _); vm_compute; exact I] |]).
  by apply elem_of_nil in Hc.
Defined.

End AssemblerMore.

(** ** The run of fetch_pr_comments and main *)

Section SplitFacts.
Implicit Types (s a b : Py.str) (sep : N).

Lemma split1_without sep s : sep ∉ s → Py.split1 sep s = [s].
Proof.
  induction s as [|c s IH]; simpl; [done |].
  intros Hnot. rewrite decide_False by (intros ->; apply Hnot; left).
  rewrite IH; [done |]. intros ?. apply Hnot. by right.
Qed.

Lemma split1_at_first sep a b :
  sep ∉ a → Py.split1 sep (a ++ sep :: b) = [a; b].
Proof.
  induction a as [|c a IH]; simpl; intros Hnot.
  - by rewrite decide_True.
  - rewrite decide_False by (intros ->; apply Hnot; left).
    rewrite IH; [done |]. intros ?. apply Hnot. by right.
Qed.

End SplitFacts.

Section Run.
Context {host : Host}.

Lemma stops_const {A} (o : outcome A) :
  (∀ e, o ≠ Raised (TransportError e)) → stops_at_failure (λ p, (o, p)).
Proof.
  intros Ho p. exists []. split; [constructor |]. simpl.
  destruct o as [a|[e| | |]|]; try by rewrite app_nil_r.
  by destruct (Ho e).
Qed.

Lemma stops_ret {A} (a : A) : stops_at_failure (ret a).
Proof. by apply (stops_const (Done a)). Qed.

Lemma stops_raise_value {A} : stops_at_failure (@raise _ A ValueError).
Proof. by apply (stops_const (Raised ValueError)). Qed.

Lemma stops_raise_shape {A} : stops_at_failure (@raise _ A ShapeError).
Proof. by apply (stops_const (Raised ShapeError)). Qed.

Lemma stops_raise_exit {A} code : stops_at_failure (@raise _ A (SystemExit code)).
Proof. by apply (stops_const (Raised (SystemExit code))). Qed.

Lemma stops_out_of_fuel {A} : stops_at_failure (@out_of_fuel _ A).
Proof. by apply (stops_const OutOfFuel). Qed.

Lemma stops_print_stderr l : stops_at_failure (print_stderr l).
Proof.
  intros p. exists []. split; [constructor |]. simpl. by rewrite app_nil_r.
Qed.

Lemma stops_print_stdout s : stops_at_failure (print_stdout s).
Proof.
  intros p. exists []. split; [constructor |]. simpl. by rewrite app_nil_r.
Qed.

Lemma stops_run_gh req : stops_at_failure (run_gh req).
Proof.
  intros p. unfold run_gh.
  destruct (gh req (p_gh p)) as [[e|a] s]; simpl.
  - exists []. split; [constructor |]. by exists req.
  - exists [(req, None)]. split; [by repeat constructor | done].
Qed.

Lemma stops_bind {A B} (m : M A) (k : A → M B) :
  stops_at_failure m → (∀ a, stops_at_failure (k a)) →
  stops_at_failure (bind m k).
Proof.
  intros Hm Hk p. destruct (Hm p) as (oks1 & Hok1 & H1).
  unfold bind. destruct (m p) as [[a|e|] p1]; simpl in *.
  - destruct (Hk a p1) as (oks2 & Hok2 & H2).
    exists (oks1 ++ oks2). split; [by apply Forall_app |].
    destruct ((k a p1).1) as [b|[e| | |]|];
      try (by rewrite H2, H1, <- !app_assoc).
    destruct H2 as [req H2]. exists req.
    by rewrite H2, H1, <- !app_assoc.
  - exists oks1. split; [done |]. by destruct e.
  - by exists oks1.
Qed.

Lemma silent_err_bind {A B} (m : M A) (k : A → M B) :
  silent_err m → (∀ a, silent_err (k a)) → silent_err (bind m k).
Proof.
  intros Hm Hk p. specialize (Hm p). unfold bind.
  destruct (m p) as [[a|e|] p1]; simpl in *; [|done..].
  by rewrite Hk.
Qed.

Lemma silent_err_run_gh req : silent_err (run_gh req).
Proof.
  intros p. unfold run_gh. by destruct (gh req (p_gh p)) as [[e|a] s].
Qed.

Lemma stops_resolved_loop fuel owner repo number cursor acc :
  stops_at_failure (resolved_loop fuel owner repo number cursor acc).
Proof.
  revert cursor acc. induction fuel as [|fuel IH]; intros cursor acc; simpl.
  - apply stops_out_of_fuel.
  - apply stops_bind; [apply stops_run_gh | intros a].
    apply stops_bind;
      [destruct a; first [apply stops_ret | apply stops_raise_shape]
      | intros threads].
    destruct (negb _); [apply stops_ret | apply IH].
Qed.

Lemma silent_err_resolved_loop fuel owner repo number cursor acc :
  silent_err (resolved_loop fuel owner repo number cursor acc).
Proof.
  revert cursor acc. induction fuel as [|fuel IH]; intros cursor acc; simpl.
  - done.
  - apply silent_err_bind; [apply silent_err_run_gh | intros a].
    apply silent_err_bind; [by destruct a | intros threads].
    by destruct (negb _).
Qed.

Lemma stops_fetch_pr_comments fuel repo number :
  stops_at_failure (fetch_pr_comments fuel repo number).
Proof.
  unfold fetch_pr_comments.
  apply stops_bind; [|intros names].
  { unfold unpack2. destruct (Py.split1 _ _) as [|? [|? [|]]];
      first [apply stops_ret | apply stops_raise_value]. }
  apply stops_bind; [apply stops_run_gh | intros pr_data].
  apply stops_bind; [|intros n].
  { unfold int_of. destruct (py_int number);
      first [apply stops_ret | apply stops_raise_value]. }
  apply stops_bind; [apply stops_resolved_loop | intros resolved_ids].
  apply stops_bind; [apply stops_run_gh | intros a_review].
  apply stops_bind;
    [destruct a_review; first [apply stops_ret | apply stops_raise_shape]
    | intros raw_review].
  apply stops_bind; [apply stops_run_gh | intros a_issue].
  apply stops_bind;
    [destruct a_issue; first [apply stops_ret | apply stops_raise_shape]
    | intros raw_issue].
  apply stops_ret.
Qed.

Lemma silent_err_fetch_pr_comments fuel repo number :
  silent_err (fetch_pr_comments fuel repo number).
Proof.
  unfold fetch_pr_comments.
  apply silent_err_bind; [|intros names].
  { unfold unpack2. by destruct (Py.split1 _ _) as [|? [|? [|]]]. }
  apply silent_err_bind; [apply silent_err_run_gh | intros pr_data].
  apply silent_err_bind; [|intros n].
  { unfold int_of. by destruct (py_int number). }
  apply silent_err_bind; [apply silent_err_resolved_loop | intros resolved_ids].
  apply silent_err_bind; [apply silent_err_run_gh | intros a_review].
  apply silent_err_bind; [by destruct a_review | intros raw_review].
  apply silent_err_bind; [apply silent_err_run_gh | intros a_issue].
  apply silent_err_bind; [by destruct a_issue | intros raw_issue].
  done.
Qed.

Lemma stops_parse_pr_ref args : stops_at_failure (parse_pr_ref args).
Proof.
  unfold parse_pr_ref. destruct args as [|url [|a1 [|]]].
  - apply stops_bind; [apply stops_print_stderr | intros _].
    apply stops_raise_exit.
  - destruct (Re.match_ _ _); [apply stops_ret |].
    apply stops_bind; [apply stops_print_stderr | intros _].
    apply stops_raise_exit.
  - apply stops_ret.
  - apply stops_bind; [apply stops_print_stderr | intros _].
    apply stops_raise_exit.
Qed.

Lemma stops_main fuel args : stops_at_failure (main fuel args).
Proof.
  unfold main. destruct args as [|a0 args].
  - apply stops_bind; [apply stops_print_stderr | intros _].
    apply stops_raise_exit.
  - apply stops_bind; [apply stops_parse_pr_ref | intros ref].
    apply stops_bind; [apply stops_fetch_pr_comments | intros data].
    apply stops_print_stdout.
Qed.

(** A parse that returns has left the process as it was. *)
Lemma parse_pr_ref_done args p ref q :
  parse_pr_ref args p = (Done ref, q) → q = p.
Proof.
  unfold parse_pr_ref. destruct args as [|url [|a1 [|]]]; try done.
  - destruct (Re.match_ _ _); [|done]. by intros [= _ <-].
  - by intros [= _ <-].
Qed.

(** X5.  [main] ends on the usage text whenever it is given no argument
    or more than two: the module docstring goes to standard error, the exit
    status is 1, and [gh] is not called. *)
Theorem main_usage_on_other_arity fuel args p :
  length args ≠ 1%nat → length args ≠ 2%nat →
  main fuel args p =
  (Raised (SystemExit 1),
   {| p_gh := p_gh p; p_calls := p_calls p;
      p_stderr := p_stderr p ++ [UsageDoc]; p_stdout := p_stdout p |}).
Proof. by destruct args as [|a0 [|a1 [|a2 args]]]. Qed.

(** X6.  An [owner/repo] argument without a slash makes [fetch_pr_comments]
    raise [ValueError] at the unpacking of [repo.split], before any call:
    the process is left as it was; so does [main] on the two-argument
    form. *)
Theorem repo_without_slash_raises fuel repo number p :
  slash ∉ repo →
  fetch_pr_comments fuel repo number p = (Raised ValueError, p) ∧
  main fuel [repo; number] p = (Raised ValueError, p).
Proof.
  intros Hno. unfold main, parse_pr_ref, fetch_pr_comments, bind, ret. simpl.
  by rewrite (split1_without _ _ Hno).
Qed.

(** X7.  The number is converted only after the metadata call: when
    [repo] has a slash and [int(number)] raises, exactly one call has been
    made, the metadata call for [repo] and [number] as given, and the
    function raises (the error of that call if it failed, [ValueError]
    otherwise). *)
Theorem number_checked_after_metadata_call fuel repo number p :
  slash ∈ repo → py_int number = None →
  let run := fetch_pr_comments fuel repo number p in
  match gh (GetPull repo number) (p_gh p) with
  | (inl e, _) =>
      run.1 = Raised (TransportError e) ∧
      calls_made p run.2 = [(GetPull repo number, Some e)]
  | (inr _, _) =>
      run.1 = Raised ValueError ∧
      calls_made p run.2 = [(GetPull repo number, None)]
  end.
Proof.
  intros (a & b & -> & Ha)%list_elem_of_split_l Hint.
  unfold fetch_pr_comments, bind, unpack2. rewrite (split1_at_first _ _ _ Ha).
  simpl. unfold run_gh, int_of.
  destruct (gh _ (p_gh p)) as [[e|pr] s]; simpl; rewrite ?Hint; simpl;
    (split; [done |]); unfold calls_made; simpl; by rewrite drop_app_length.
Qed.

End Run.

Lemma main_usage_on_other_arity_witness :
  let p := @fresh SampleHost.steady 0%nat in
  @main SampleHost.steady 5
    [Py.lit "owner/repo"; Py.lit "42"; Py.lit "extra"] p =
  (Raised (SystemExit 1),
   @Process SampleHost.steady 0%nat [] [UsageDoc] []).
Proof.
  intros p. apply (@main_usage_on_other_arity SampleHost.steady); simpl; lia.
Defined.

Lemma repo_without_slash_raises_witness :
  let p := @fresh SampleHost.steady 0%nat in
  @fetch_pr_comments SampleHost.steady 5 (Py.lit "repo") (Py.lit "42") p
    = (Raised ValueError, p) ∧
  @main SampleHost.steady 5 [Py.lit "repo"; Py.lit "42"] p
    = (Raised ValueError, p).
Proof.
  intros p. apply (@repo_without_slash_raises SampleHost.steady).
  refine (bool_decide_unpack _ _). vm_compute. exact I.
Defined.

Lemma number_checked_after_metadata_call_witness :
  let p := @fresh SampleHost.steady 0%nat in
  let run := @fetch_pr_comments SampleHost.steady 5
               (Py.lit "owner/repo") (Py.lit "4x2") p in
  run.1 = Raised ValueError ∧
  @calls_made SampleHost.steady p run.2 =
  [(GetPull (Py.lit "owner/repo") (Py.lit "4x2"), None)].
Proof.
  intros p.
  apply (@number_checked_after_metadata_call SampleHost.steady 5
           (Py.lit "owner/repo") (Py.lit "4x2") p).
  - refine (bool_decide_unpack _ _). vm_compute. exact I.
  - reflexivity.
Defined.

Section RunOnAServingHost.
Context {host : Host}.

Lemma serves_nonempty owner repo number s cursor pages s' :
  serves owner repo number s cursor pages s' → pages ≠ [].
Proof. by destruct 1. Qed.

(** The loop on a host that serves [pages], with the state it leaves. *)
Lemma resolved_loop_run owner repo number s cursor pages s' :
  serves owner repo number s cursor pages s' →
  ∀ fuel acc p,
    p_gh p = s → (length pages ≤ fuel)%nat →
    resolved_loop fuel owner repo number cursor acc p =
    (Done (fold_left add_resolved (concat (pg_nodes <$> pages)) acc),
     {| p_gh := s';
        p_calls := p_calls p ++
          ((λ req, (req, None)) <$>
             thread_queries owner repo number cursor pages);
        p_stderr := p_stderr p; p_stdout := p_stdout p |}).
Proof.
  induction 1 as [s cursor pg s' Hgh Hlast
                 |s cursor pg s1 pgs s' Hgh Hnext Hrest IH];
    intros [|fuel] acc p Hp Hfuel; simpl in Hfuel; try lia.
  - simpl. unfold bind, run_gh. rewrite Hp, Hgh. simpl.
    rewrite Hlast. simpl. by rewrite app_nil_r.
  - simpl. unfold bind, run_gh. rewrite Hp, Hgh. simpl.
    rewrite Hnext. simpl. rewrite fold_left_app.
    rewrite IH; [| done | lia]. simpl. rewrite <- app_assoc.
    pose proof (serves_nonempty _ _ _ _ _ _ _ Hrest).
    by destruct pgs.
Qed.

(** X8.  On a host that serves a finite sequence of pages the resolver
    asks once for each page, in order: first without a cursor, then each
    time with the [endCursor] of the page before; every call succeeds and
    nothing is printed. *)
Theorem resolver_follows_cursors owner repo number pages s' fuel p :
  serves owner repo number (p_gh p) None pages s' →
  (length pages ≤ fuel)%nat →
  let run := fetch_resolved_thread_ids fuel owner repo number p in
  calls_made p run.2 =
    (λ cursor, (GraphqlReviewThreads owner repo number cursor, None))
      <$> (None :: next_cursors pages) ∧
  p_stdout run.2 = p_stdout p ∧ p_stderr run.2 = p_stderr p.
Proof.
  intros Hserves Hfuel. unfold fetch_resolved_thread_ids.
  rewrite (resolved_loop_run _ _ _ _ _ _ _ Hserves fuel ∅ p eq_refl Hfuel).
  simpl. split; [|done]. unfold calls_made. simpl.
  rewrite drop_app_length. unfold thread_queries.
  by rewrite <- !list_fmap_compose.
Qed.

(** X9.  The whole of [fetch_pr_comments] on a host where every call
    succeeds: the calls are the metadata call, the thread queries, the
    inline comments call and the issue comments call, in that order and no
    other; the document returned holds the metadata answer as it came, the
    assembled review comments for the resolved ids of all pages, and the
    issue comments projected in their order. *)
Theorem fetch_pr_comments_on_success
    fuel owner name number n pr pages raw_review raw_issue s1 s2 s3 s4 p :
  let repo := owner ++ slash :: name in
  slash ∉ owner →
  gh (GetPull repo number) (p_gh p) = (inr pr, s1) →
  py_int number = Some n →
  serves owner name n s1 None pages s2 →
  (length pages ≤ fuel)%nat →
  gh (GetPullComments repo number) s2 = (inr (CommentsAnswer raw_review), s3) →
  gh (GetIssueComments repo number) s3
    = (inr (IssueCommentsAnswer raw_issue), s4) →
  ∃ resolved p',
    fetch_pr_comments fuel repo number p =
      (Done {| doc_pr := pr;
               doc_review_comments := review_comments resolved raw_review;
               doc_issue_comments := issue_comment_of <$> raw_issue |}, p') ∧
    (∀ x, x ∈ resolved ↔
          ∃ thread, thread ∈ concat (pg_nodes <$> pages) ∧
                    th_isResolved thread = true ∧
                    head (th_comments thread) = Some x) ∧
    p_gh p' = s4 ∧
    calls_made p p' =
      (λ req, (req, None)) <$>
        ([GetPull repo number]
         ++ thread_queries owner name n None pages
         ++ [GetPullComments repo number; GetIssueComments repo number]).
Proof.
  intros repo Howner Hpull Hint Hserves Hfuel Hreview Hissue.
  exists (fold_left add_resolved (concat (pg_nodes <$> pages)) ∅).
  eexists. split_and!.
  - unfold fetch_pr_comments, bind, unpack2, repo.
    rewrite (split1_at_first _ _ _ Howner). simpl.
    unfold run_gh at 1. fold repo. rewrite Hpull. simpl.
    unfold int_of. rewrite Hint. simpl.
    unfold fetch_resolved_thread_ids.
    rewrite (resolved_loop_run _ _ _ _ _ _ _ Hserves fuel ∅); [| done..].
    unfold run_gh. simpl. rewrite Hreview. simpl. rewrite Hissue. simpl.
    reflexivity.
  - intros x. rewrite elem_of_fold_add_resolved. split; [|by right].
    intros [Hx|?]; [|done]. by apply not_elem_of_empty in Hx.
  - done.
  - unfold calls_made. simpl. rewrite <- !app_assoc, drop_app_length.
    by rewrite fmap_app.
Qed.

End RunOnAServingHost.

Lemma resolver_follows_cursors_witness :
  let p := @fresh SampleHost.steady 0%nat in
  let run := @fetch_resolved_thread_ids SampleHost.steady 2
               (Py.lit "owner") (Py.lit "repo") 42 p in
  @calls_made SampleHost.steady p run.2 =
  [(GraphqlReviewThreads (Py.lit "owner") (Py.lit "repo") 42 None, None);
   (GraphqlReviewThreads (Py.lit "owner") (Py.lit "repo") 42
      (Some (Py.lit "Mw")), None)].
Proof.
  intros p.
  refine (proj1 (@resolver_follows_cursors SampleHost.steady
                   (Py.lit "owner") (Py.lit "repo") 42
                   [SampleHost.page1; SampleHost.page2] 2%nat 2 p _ _));
    [| simpl; lia].
  eapply (@serves_next SampleHost.steady); [reflexivity | reflexivity |].
  eapply (@serves_last SampleHost.steady); reflexivity.
Defined.

Lemma fetch_pr_comments_on_success_witness :
  let p := @fresh SampleHost.steady 0%nat in
  ∃ resolved p',
    @fetch_pr_comments SampleHost.steady 2
      (Py.lit "owner" ++ slash :: Py.lit "repo") (Py.lit "42") p =
      (Done {| doc_pr := PullAnswer SampleHost.pr;
               doc_review_comments :=
                 review_comments resolved Sample.two_threads;
               doc_issue_comments :=
                 issue_comment_of <$> SampleHost.issue_comments |}, p') ∧
    (∀ x, x ∈ resolved ↔
          ∃ thread,
            thread ∈ concat (pg_nodes <$> [SampleHost.page1; SampleHost.page2]) ∧
            th_isResolved thread = true ∧
            head (th_comments thread) = Some x) ∧
    @p_gh SampleHost.steady p' = 5%nat ∧
    @calls_made SampleHost.steady p p' =
      (λ req, (req, None)) <$>
        ([GetPull (Py.lit "owner" ++ slash :: Py.lit "repo") (Py.lit "42")]
         ++ thread_queries (Py.lit "owner") (Py.lit "repo") 42 None
              [SampleHost.page1; SampleHost.page2]
         ++ [GetPullComments (Py.lit "owner" ++ slash :: Py.lit "repo")
               (Py.lit "42");
             GetIssueComments (Py.lit "owner" ++ slash :: Py.lit "repo")
               (Py.lit "42")]).
Proof.
  intros p.
  apply (@fetch_pr_comments_on_success SampleHost.steady 2
           (Py.lit "owner") (Py.lit "repo") (Py.lit "42") 42
           (PullAnswer SampleHost.pr) [SampleHost.page1; SampleHost.page2]
           Sample.two_threads SampleHost.issue_comments
           1%nat 3%nat 4%nat 5%nat p).
  - refine (bool_decide_unpack _ _). vm_compute. exact I.
  - reflexivity.
  - reflexivity.
  - eapply (@serves_next SampleHost.steady); [reflexivity | reflexivity |].
    eapply (@serves_last SampleHost.steady); reflexivity.
  - simpl. lia.
  - reflexivity.
  - reflexivity.
Defined.

Section RunMore.
Context {host : Host}.

Lemma endless_loop owner repo number :
  (∀ cursor s, ∃ pg s',
     gh (GraphqlReviewThreads owner repo number cursor) s
       = (inr (ThreadsAnswer pg), s') ∧
     pg_hasNextPage pg = true) →
  ∀ fuel cursor acc p,
    (resolved_loop fuel owner repo number cursor acc p).1 = OutOfFuel ∧
    ∃ new, p_calls (resolved_loop fuel owner repo number cursor acc p).2
             = p_calls p ++ new ∧
           length new = fuel.
Proof.
  intros Hmore. induction fuel as [|fuel IH]; intros cursor acc p; simpl.
  - split; [done |]. exists []. by rewrite app_nil_r.
  - destruct (Hmore cursor (p_gh p)) as (pg & s' & Hgh & Hnext).
    unfold bind, run_gh. rewrite Hgh. simpl. rewrite Hnext. simpl.
    match goal with
    | |- context [resolved_loop fuel owner repo number ?c ?a ?q] =>
        destruct (IH c a q) as (Hout & new & Hcalls & Hlen)
    end.
    split; [done |]. exists ((GraphqlReviewThreads owner repo number cursor, None) :: new).
    split; [|by simpl; rewrite Hlen].
    rewrite Hcalls. simpl. by rewrite <- app_assoc.
Qed.

(** X10.  The loop of the resolver has no bound of its own: on a host
    whose every page announces a next one, whatever number of rounds it is
    given it has made that many queries and has not returned. *)
Theorem resolver_unbounded_without_last_page owner repo number :
  (∀ cursor s, ∃ pg s',
     gh (GraphqlReviewThreads owner repo number cursor) s
       = (inr (ThreadsAnswer pg), s') ∧
     pg_hasNextPage pg = true) →
  ∀ fuel p,
    let run := fetch_resolved_thread_ids fuel owner repo number p in
    run.1 = OutOfFuel ∧ length (calls_made p run.2) = fuel.
Proof.
  intros Hmore fuel p. unfold fetch_resolved_thread_ids.
  destruct (endless_loop _ _ _ Hmore fuel None ∅ p)
    as (Hout & new & Hcalls & Hlen).
  split; [done |]. by rewrite (calls_made_app _ _ _ Hcalls).
Qed.

(** X11.  [main] writes to standard output only when it returns, and then
    one line: the serialisation of the document [fetch_pr_comments]
    returned for the parsed reference, with nothing written to standard
    error; in every other case standard output is left as it was. *)
Theorem main_prints_document_or_nothing fuel args p :
  match (main fuel args p).1 with
  | Done _ =>
      ∃ ref doc q,
        parse_pr_ref args p = (Done ref, p) ∧
        fetch_pr_comments fuel ref.1 ref.2 p = (Done doc, q) ∧
        printed p (main fuel args p).2 = [json_dumps doc] ∧
        p_stderr (main fuel args p).2 = p_stderr p
  | _ => printed p (main fuel args p).2 = []
  end.
Proof.
  unfold main, printed. destruct args as [|a0 args].
  { simpl. apply drop_all. }
  unfold bind.
  destruct (parse_pr_ref (a0 :: args) p) as [[ref|e|] q] eqn:Hparse.
  - pose proof (parse_pr_ref_done _ _ _ _ Hparse) as ->.
    pose proof (silent_fetch_pr_comments fuel ref.1 ref.2 p) as Hout.
    pose proof (silent_err_fetch_pr_comments fuel ref.1 ref.2 p) as Herr.
    destruct (fetch_pr_comments fuel ref.1 ref.2 p) as [[doc|e|] q] eqn:Hfetch;
      simpl in *.
    + exists ref, doc, q. split_and!; try done.
      by rewrite Hout, drop_app_length.
    + rewrite Hout. apply drop_all.
    + rewrite Hout. apply drop_all.
  - pose proof (silent_parse_pr_ref (a0 :: args) p) as Hout.
    rewrite Hparse in Hout. simpl in *. rewrite Hout. apply drop_all.
  - pose proof (silent_parse_pr_ref (a0 :: args) p) as Hout.
    rewrite Hparse in Hout. simpl in *. rewrite Hout. apply drop_all.
Qed.

(** X12.  No call follows a failed call, and none is retried: the calls of
    a run of [main] all succeeded, but for one failed call at the very end
    exactly when the run raises that call's error. *)
Theorem no_call_after_failure fuel args p :
  ∃ oks, Forall succeeded oks ∧
    match (main fuel args p).1 with
    | Raised (TransportError e) =>
        ∃ req, calls_made p (main fuel args p).2 = oks ++ [(req, Some e)]
    | _ => calls_made p (main fuel args p).2 = oks
    end.
Proof.
  destruct (stops_main fuel args p) as (oks & Hoks & Hcalls).
  exists oks. split; [done |].
  destruct ((main fuel args p).1) as [a|[e| | |]|];
    try by apply calls_made_app.
  destruct Hcalls as [req Hcalls]. exists req. by apply calls_made_app.
Qed.

End RunMore.

Lemma resolver_unbounded_without_last_page_witness :
  let p := @fresh EndlessHost.endless 0%nat in
  let run := @fetch_resolved_thread_ids EndlessHost.endless 7
               (Py.lit "owner") (Py.lit "repo") 42 p in
  run.1 = OutOfFuel ∧
  length (@calls_made EndlessHost.endless p run.2) = 7%nat.
Proof.
  intros p.
  apply (@resolver_unbounded_without_last_page EndlessHost.endless).
  intros cursor s. by exists EndlessHost.page, (S s).
Defined.

(** ** From the URL to the API *)

Section FirstCalls.
Context {host : Host}.

Lemma grows_of_surfaces {A} (m : M A) : surfaces_failures m → grows m.
Proof. intros Hm p. destruct (Hm p) as (new & Hnew & _). by exists new. Qed.

Lemma calls_first_run_gh req : calls_first req (run_gh req).
Proof.
  intros p. unfold run_gh.
  destruct (gh req (p_gh p)) as [[e|a] s]; simpl; by eexists _, [].
Qed.

Lemma calls_first_bind {A B} req (m : M A) (k : A → M B) :
  calls_first req m → (∀ a, grows (k a)) → calls_first req (bind m k).
Proof.
  intros Hm Hk p. destruct (Hm p) as (r & more & Hcalls).
  unfold bind. destruct (m p) as [[a|e|] p1]; simpl in *; [|by eauto..].
  destruct (Hk a p1) as (new & Hnew).
  exists r, (more ++ new). by rewrite Hnew, Hcalls, <- app_assoc.
Qed.

Lemma calls_first_resolver fuel owner repo number :
  (0 < fuel)%nat →
  calls_first (GraphqlReviewThreads owner repo number None)
    (fetch_resolved_thread_ids fuel owner repo number).
Proof.
  destruct fuel as [|fuel]; [lia | intros _].
  unfold fetch_resolved_thread_ids. simpl.
  apply calls_first_bind; [apply calls_first_run_gh | intros a].
  apply grows_of_surfaces.
  apply surfaces_bind; [apply surfaces_as_threads | intros threads].
  destruct (negb _); [apply surfaces_ret | apply surfaces_resolved_loop].
Qed.

(** What [fetch_pr_comments] does once it has the resolved ids. *)
Lemma grows_after_resolver repo number (pr_data : answer) resolved_ids :
  grows
    (a_review <- run_gh (GetPullComments repo number);;
     raw_review <- as_comments a_review;;
     a_issue <- run_gh (GetIssueComments repo number);;
     raw_issue <- as_issue_comments a_issue;;
     ret {| doc_pr := pr_data;
            doc_review_comments := review_comments resolved_ids raw_review;
            doc_issue_comments := issue_comment_of <$> raw_issue |}).
Proof.
  apply grows_of_surfaces.
  apply surfaces_bind; [apply surfaces_run_gh | intros a_review].
  apply surfaces_bind; [apply surfaces_as_comments | intros raw_review].
  apply surfaces_bind; [apply surfaces_run_gh | intros a_issue].
  apply surfaces_bind; [apply surfaces_as_issue_comments | intros raw_issue].
  apply surfaces_ret.
Qed.

Lemma Forall_not_elem_of (s : Py.str) c :
  Forall (λ d, d ≠ c) s → c ∉ s.
Proof.
  intros Hall Hin. rewrite Forall_forall in Hall. by apply (Hall c).
Qed.

Lemma bind_calls_prefix {A B} (m : M A) (k : A → M B) p :
  (∀ a, grows (k a)) →
  ∃ new, p_calls (bind m k p).2 = p_calls (m p).2 ++ new.
Proof.
  intros Hk. unfold bind.
  destruct (m p) as [[a|e|] p1]; simpl; [|exists []; by rewrite app_nil_r..].
  apply Hk.
Qed.

Lemma main_accepted_url fuel url owner repo number rest p :
  github_pr_prefix url owner repo number rest →
  main fuel [url] p =
  bind (fetch_pr_comments fuel (owner ++ slash :: repo) number)
    (λ data, print_stdout (json_dumps data)) p.
Proof.
  intros Hform. unfold main, parse_pr_ref.
  by rewrite (match_pr_url _ _ _ _ _ Hform).
Qed.

Lemma fetch_with_slash fuel owner repo number p :
  slash ∉ owner →
  fetch_pr_comments fuel (owner ++ slash :: repo) number p =
  bind (run_gh (GetPull (owner ++ slash :: repo) number))
    (λ pr_data,
       bind (int_of number)
         (λ n,
            bind (fetch_resolved_thread_ids fuel owner repo n)
              (λ resolved_ids,
                 a_review <- run_gh (GetPullComments (owner ++ slash :: repo) number);;
                 raw_review <- as_comments a_review;;
                 a_issue <- run_gh (GetIssueComments (owner ++ slash :: repo) number);;
                 raw_issue <- as_issue_comments a_issue;;
                 ret {| doc_pr := pr_data;
                        doc_review_comments :=
                          review_comments resolved_ids raw_review;
                        doc_issue_comments := issue_comment_of <$> raw_issue |})))
    p.
Proof.
  intros Hos. unfold fetch_pr_comments. unfold bind at 1. unfold unpack2.
  by rewrite (split1_at_first _ _ _ Hos).
Qed.

Lemma calls_first_fetch fuel owner repo number p :
  slash ∉ owner →
  ∃ r more,
    p_calls (fetch_pr_comments fuel (owner ++ slash :: repo) number p).2 =
    p_calls p ++ (GetPull (owner ++ slash :: repo) number, r) :: more.
Proof.
  intros Hos. rewrite (fetch_with_slash _ _ _ _ _ Hos).
  apply (calls_first_bind (GetPull (owner ++ slash :: repo) number));
    [apply calls_first_run_gh | intros pr_data].
  apply grows_of_surfaces.
  apply surfaces_bind; [|intros n].
  { unfold int_of. destruct (py_int number);
      [apply surfaces_ret | apply surfaces_raise]. }
  apply surfaces_bind; [apply surfaces_resolved_loop | intros resolved].
  apply surfaces_bind; [apply surfaces_run_gh | intros a_review].
  apply surfaces_bind; [apply surfaces_as_comments | intros raw_review].
  apply surfaces_bind; [apply surfaces_run_gh | intros a_issue].
  apply surfaces_bind; [apply surfaces_as_issue_comments | intros ri].
  apply surfaces_ret.
Qed.

Lemma calls_second_fetch fuel owner repo number p pr s1 n :
  slash ∉ owner →
  gh (GetPull (owner ++ slash :: repo) number) (p_gh p) = (inr pr, s1) →
  py_int number = Some n → (0 < fuel)%nat →
  ∃ r more,
    p_calls (fetch_pr_comments fuel (owner ++ slash :: repo) number p).2 =
    p_calls p ++ (GetPull (owner ++ slash :: repo) number, None)
              :: (GraphqlReviewThreads owner repo n None, r) :: more.
Proof.
  intros Hos Hpull Hint Hfuel. rewrite (fetch_with_slash _ _ _ _ _ Hos).
  unfold bind at 1. unfold run_gh at 1. rewrite Hpull. cbn [fst snd].
  unfold bind at 1. unfold int_of. rewrite Hint. unfold ret at 1.
  match goal with
  | |- context [bind (fetch_resolved_thread_ids fuel owner repo n) ?k ?q] =>
      destruct (calls_first_bind (GraphqlReviewThreads owner repo n None)
                  (fetch_resolved_thread_ids fuel owner repo n) k
                  (calls_first_resolver fuel owner repo n Hfuel)
                  (λ resolved, grows_after_resolver _ _ pr resolved) q)
        as (r & more & Hcalls)
  end.
  exists r, more. rewrite Hcalls. simpl. by rewrite <- app_assoc.
Qed.

(** X13.  A URL the pattern accepts is turned into the calls for that
    repository and number: the first call of [main] is the metadata call
    for [owner/repo] and the number as written; and when that call
    succeeds, the number converts and the resolver has a round to run, the
    second call is the thread query for [owner] and [repo] taken apart at
    the slash, with the converted number and no cursor. *)
Theorem accepted_url_reaches_api fuel url owner repo number rest p :
  github_pr_prefix url owner repo number rest →
  let run := main fuel [url] p in
  (∃ r more,
     calls_made p run.2 =
     (GetPull (owner ++ [slash] ++ repo) number, r) :: more) ∧
  (∀ pr s1 n,
     gh (GetPull (owner ++ [slash] ++ repo) number) (p_gh p) = (inr pr, s1) →
     py_int number = Some n → (0 < fuel)%nat →
     ∃ r more,
       calls_made p run.2 =
       (GetPull (owner ++ [slash] ++ repo) number, None)
       :: (GraphqlReviewThreads owner repo n None, r) :: more).
Proof.
  intros Hform. cbv zeta. rewrite (main_accepted_url _ _ _ _ _ _ _ Hform).
  destruct Hform as (_ & _ & Hos%Forall_not_elem_of & _).
  change (owner ++ [slash] ++ repo) with (owner ++ slash :: repo).
  destruct (bind_calls_prefix
              (fetch_pr_comments fuel (owner ++ slash :: repo) number)
              (λ data, print_stdout (json_dumps data)) p) as (new & Hnew).
  { intros data. apply grows_of_surfaces, surfaces_print_stdout. }
  split.
  - destruct (calls_first_fetch fuel owner repo number p Hos)
      as (r & more & Hcalls).
    exists r, (more ++ new). apply calls_made_app.
    by rewrite Hnew, Hcalls, <- app_assoc.
  - intros pr s1 n Hpull Hint Hfuel.
    destruct (calls_second_fetch fuel owner repo number p pr s1 n
                Hos Hpull Hint Hfuel) as (r & more & Hcalls).
    exists r, (more ++ new). apply calls_made_app.
    by rewrite Hnew, Hcalls, <- app_assoc.
Qed.

End FirstCalls.

Lemma accepted_url_reaches_api_witness :
  let p := @fresh SampleHost.steady 0%nat in
  let run := @main SampleHost.steady 5
               [Py.lit "https://github.com/owner/repo/pull/42/files"] p in
  ∃ r more,
    @calls_made SampleHost.steady p run.2 =
    (GetPull (Py.lit "owner" ++ [slash] ++ Py.lit "repo") (Py.lit "42"), None)
    :: (GraphqlReviewThreads (Py.lit "owner") (Py.lit "repo") 42 None, r)
    :: more.
Proof.
  intros p.
  refine (proj2 (@accepted_url_reaches_api SampleHost.steady 5
                   (Py.lit "https://github.com/owner/repo/pull/42/files")
                   (Py.lit "owner") (Py.lit "repo") (Py.lit "42")
                   (Py.lit "/files") p _)
            (PullAnswer SampleHost.pr) 1%nat 42 eq_refl eq_refl _);
    [|lia].
  split_and!; try done; try (repeat constructor; discriminate).
  by intros c [= <-].
Defined.

(** * The writing scripts *)

(** ** Stripping and splitting *)

Section Strings.
Implicit Types (s t a b : Py.str) (cls : N → bool) (sep : N).

Lemma lstrip_all cls t s :
  Forall (λ c, cls c = true) t →
  (∀ c, head s = Some c → cls c = false) →
  Write.lstrip cls (t ++ s) = s.
Proof.
  unfold Write.lstrip. intros Ht Hs.
  induction Ht as [|c t Hc Ht IH]; simpl.
  - destruct s as [|c s]; [done |]. simpl. by rewrite (Hs c).
  - by rewrite Hc.
Qed.

Lemma rstrip_snoc cls s c :
  Write.rstrip cls (s ++ [c]) =
  if cls c then Write.rstrip cls s else s ++ [c].
Proof.
  unfold Write.rstrip. rewrite reverse_snoc. simpl.
  destruct (cls c); [done |].
  by rewrite reverse_cons, reverse_involutive.
Qed.

Lemma rstrip_all cls s t :
  Forall (λ c, cls c = true) t →
  Write.rstrip cls (s ++ t) = Write.rstrip cls s.
Proof.
  induction t as [|c t IH] using rev_ind; intros Ht.
  - by rewrite app_nil_r.
  - apply Forall_app in Ht as [Ht Hc]. rewrite Forall_singleton in Hc.
    rewrite app_assoc, rstrip_snoc, Hc. by apply IH.
Qed.

Lemma rstrip_keeps cls s :
  (∀ c, last s = Some c → cls c = false) → Write.rstrip cls s = s.
Proof.
  destruct s as [|c s _] using rev_ind; [done |].
  intros Hlast. rewrite rstrip_snoc, (Hlast c); [done |].
  by rewrite last_snoc.
Qed.

Lemma rstrip_last cls s c :
  last (Write.rstrip cls s) = Some c → cls c = false.
Proof.
  induction s as [|d s IH] using rev_ind; [done |].
  rewrite rstrip_snoc. destruct (cls d) eqn:Hd; [done |].
  rewrite last_snoc. congruence.
Qed.

Lemma split_all_nonempty sep s : split_all sep s ≠ [].
Proof.
  destruct s as [|c s]; simpl; [done |].
  case_decide; [done |]. by destruct (split_all sep s).
Qed.

Lemma split_all_without sep s : sep ∉ s → split_all sep s = [s].
Proof.
  induction s as [|c s IH]; simpl; [done |].
  intros Hnot. rewrite decide_False by (intros ->; apply Hnot; left).
  rewrite IH; [done |]. intros ?. apply Hnot. by right.
Qed.

(** [(a + sep + b).split(sep) = a.split(sep) + b.split(sep)]. *)
Lemma split_all_app sep a b :
  split_all sep (a ++ sep :: b) = split_all sep a ++ split_all sep b.
Proof.
  induction a as [|c a IH]; simpl.
  - by rewrite decide_True.
  - rewrite IH. case_decide; [done |].
    pose proof (split_all_nonempty sep a).
    by destruct (split_all sep a).
Qed.

Lemma last_split_all sep a b :
  sep ∉ b → last (split_all sep (a ++ sep :: b)) = Some b.
Proof.
  intros Hb. by rewrite split_all_app, (split_all_without _ _ Hb), last_snoc.
Qed.

(** The last segment is always there and holds no separator. *)
Lemma last_split_all_segment sep s :
  ∃ x, last (split_all sep s) = Some x ∧ (sep ∉ x) ∧
       (x = [] ↔ (s = [] ∨ last s = Some sep)).
Proof.
  destruct (decide (sep ∈ s)) as [Hin|Hnot].
  - apply list_elem_of_split_r in Hin as (a & b & -> & Hb).
    exists b. rewrite (last_split_all _ _ _ Hb). split_and!; [done..|].
    split.
    + intros ->. right. by rewrite last_snoc.
    + intros [Hnil|Hlast]; [by destruct a |].
      destruct b as [|c b _] using rev_ind; [done |].
      change (a ++ sep :: b ++ [c]) with (a ++ (sep :: b) ++ [c]) in Hlast.
      rewrite app_assoc, last_snoc in Hlast.
      injection Hlast as ->. exfalso. apply Hb, elem_of_app. right. left.
  - exists s. rewrite (split_all_without _ _ Hnot). split_and!; [done..|].
    split; [by left |]. intros [?|Hlast]; [done |].
    apply last_Some_elem_of in Hlast. done.
Qed.

End Strings.

(** ** The runs of the two scripts *)

Section WriteScripts.
Context {sh : Write.Shell}.

(** Either writing script, given other than three arguments, ends on its
    usage text: the docstring goes to standard error, the exit status is 1,
    and nothing is sent. *)
Lemma write_scripts_usage args p :
  length args ≠ 3%nat →
  let usage :=
    (Write.Raised (Write.SystemExit 1),
     {| Write.p_sh := Write.p_sh p; Write.p_calls := Write.p_calls p;
        Write.p_stderr := Write.p_stderr p ++ [UsageDoc];
        Write.p_stdout := Write.p_stdout p |}) in
  Write.post_main args p = usage ∧ Write.reply_main args p = usage.
Proof. by destruct args as [|a0 [|a1 [|a2 [|a3 args]]]]. Qed.

(** What [print_id_url] leaves: one line when the text parses and has both
    keys, an exception and no line otherwise; it calls nothing. *)
Lemma print_id_url_run out p :
  Write.p_calls (Write.print_id_url out p).2 = Write.p_calls p ∧
  match (Write.print_id_url out p).1 with
  | Write.Done _ =>
      ∃ data i u,
        Write.json_loads out = Some data ∧
        Write.json_item data (Py.lit "id") = Some i ∧
        Write.json_item data (Py.lit "html_url") = Some u ∧
        Write.p_stdout (Write.print_id_url out p).2 =
          Write.p_stdout p ++ [Write.json_dumps_id_url i u]
  | Write.Raised Write.JSONDecodeError =>
      Write.json_loads out = None ∧
      Write.p_stdout (Write.print_id_url out p).2 = Write.p_stdout p
  | Write.Raised (Write.SubscriptError key) =>
      (∃ data, Write.json_loads out = Some data ∧
               Write.json_item data key = None) ∧
      Write.p_stdout (Write.print_id_url out p).2 = Write.p_stdout p
  | Write.Raised _ => False
  end.
Proof.
  unfold Write.print_id_url, Write.bind, Write.loads, Write.item.
  destruct (Write.json_loads out) as [data|] eqn:Hloads; simpl; [|done].
  destruct (Write.json_item data (Py.lit "id")) as [i|] eqn:Hid; simpl;
    [|by eauto].
  destruct (Write.json_item data (Py.lit "html_url")) as [u|] eqn:Hurl; simpl;
    [|by eauto].
  split; [done |]. by exists data, i, u.
Qed.

(** X14.  post_pr_comment.py with three arguments makes exactly one call,
    the POST to the issue comments of [repo] and [pr_number] with the
    message as the raw [body] field.  It prints one line, the id and URL of
    the answer, only when the call succeeded and the answer parses and has
    both keys; when the call fails it raises that error; and when the
    answer does not parse or lacks a key it raises with the comment already
    posted. *)
Theorem post_main_posts_once repo pr_number message p :
  let run := Write.post_main [repo; pr_number; message] p in
  let argv := Write.post_argv repo pr_number message in
  ∃ r, Write.calls_made p run.2 = [(argv, r)] ∧
    match run.1 with
    | Write.Done _ =>
        r = None ∧
        ∃ out s data i u,
          Write.sh_gh argv (Write.p_sh p) = (inr out, s) ∧
          Write.json_loads out = Some data ∧
          Write.json_item data (Py.lit "id") = Some i ∧
          Write.json_item data (Py.lit "html_url") = Some u ∧
          Write.printed p run.2 = [Write.json_dumps_id_url i u]
    | Write.Raised (Write.CalledProcessError e) =>
        r = Some e ∧ Write.printed p run.2 = []
    | Write.Raised Write.JSONDecodeError
    | Write.Raised (Write.SubscriptError _) =>
        r = None ∧ Write.printed p run.2 = []
    | Write.Raised _ => False
    end.
Proof.
  cbv zeta. unfold Write.post_main, Write.bind, Write.gh_stdout.
  destruct (Write.sh_gh _ (Write.p_sh p)) as [[e|out] s] eqn:Hgh; simpl.
  - exists (Some e). unfold Write.calls_made, Write.printed. simpl.
    rewrite drop_app_length. split_and!; [done..|]. apply drop_all.
  - exists None.
    match goal with
    | |- context [Write.print_id_url out ?q] =>
        destruct (print_id_url_run out q) as [Hcalls Hrun];
        destruct (Write.print_id_url out q) as [[[]|e] q'] eqn:Hprint
    end; simpl in *; unfold Write.calls_made, Write.printed.
    + rewrite Hcalls, drop_app_length. split; [done |]. split; [done |].
      destruct Hrun as (data & i & u & ? & ? & ? & Hout).
      exists out, s, data, i, u. split_and!; try done.
      by rewrite Hout, drop_app_length.
    + rewrite Hcalls, drop_app_length. split; [done |].
      destruct e as [e| |key| |code]; try done;
        destruct Hrun as [_ Hout]; rewrite Hout; split; try done;
        apply drop_all.
Qed.

(** X15.  reply_review_comment.py with three arguments first looks the
    comment up.  When the lookup fails it raises that error and posts
    nothing.  Otherwise it always goes on to the POST, whatever the lookup
    printed: the PR number in its path is the last segment of the printed
    text (stripped of blanks, then of trailing slashes), which always
    exists and never holds a slash, and is empty exactly when the printed
    text, stripped of blanks, is empty or all slashes. *)
Theorem reply_main_calls repo comment_id message p :
  let run := Write.reply_main [repo; comment_id; message] p in
  match Write.sh_gh (Write.lookup_argv repo comment_id) (Write.p_sh p) with
  | (inl e, _) =>
      run.1 = Write.Raised (Write.CalledProcessError e) ∧
      Write.calls_made p run.2
        = [(Write.lookup_argv repo comment_id, Some e)] ∧
      Write.printed p run.2 = []
  | (inr meta, _) =>
      ∃ pr_number r,
        last (Write.url_segments meta) = Some pr_number ∧
        (slash ∉ pr_number) ∧
        (pr_number = [] ↔
           Write.rstrip Write.is_slash (Write.strip meta) = []) ∧
        Write.calls_made p run.2 =
          [(Write.lookup_argv repo comment_id, None);
           (Write.reply_argv repo pr_number comment_id message, r)] ∧
        (∀ e, run.1 = Write.Raised e → Write.printed p run.2 = [])
  end.
Proof.
  cbv zeta. unfold Write.reply_main, Write.bind, Write.gh_stdout,
    Write.last_item, Write.url_segments.
  destruct (Write.sh_gh _ (Write.p_sh p)) as [[e|meta] s] eqn:Hgh; simpl.
  - unfold Write.calls_made, Write.printed. simpl.
    rewrite drop_app_length. split_and!; [done..|]. apply drop_all.
  - destruct (last_split_all_segment slash
                (Write.rstrip Write.is_slash (Write.strip meta)))
      as (pr_number & Hlast & Hslash & Hempty).
    exists pr_number. rewrite Hlast. simpl.
    destruct (Write.sh_gh _ s) as [[e|out] s'] eqn:Hpost; simpl.
    + exists (Some e). split_and!; try done.
      * rewrite Hempty. split; [|by left]. intros [?|Hl]; [done |].
        apply rstrip_last in Hl. unfold Write.is_slash in Hl.
        by rewrite N.eqb_refl in Hl.
      * unfold Write.calls_made. simpl.
        by rewrite <- app_assoc, drop_app_length.
      * intros _ _. unfold Write.printed. simpl. apply drop_all.
    + exists None.
      match goal with
      | |- context [Write.print_id_url out ?q] =>
          destruct (print_id_url_run out q) as [Hcalls Hrun];
          destruct (Write.print_id_url out q) as [[[]|e] q'] eqn:Hprint
      end; simpl in *.
      * split_and!; try done.
        -- rewrite Hempty. split; [|by left]. intros [?|Hl]; [done |].
           apply rstrip_last in Hl. unfold Write.is_slash in Hl.
           by rewrite N.eqb_refl in Hl.
        -- unfold Write.calls_made. rewrite Hcalls. simpl.
           by rewrite <- app_assoc, drop_app_length.
      * split_and!; try done.
        -- rewrite Hempty. split; [|by left]. intros [?|Hl]; [done |].
           apply rstrip_last in Hl. unfold Write.is_slash in Hl.
           by rewrite N.eqb_refl in Hl.
        -- unfold Write.calls_made. rewrite Hcalls. simpl.
           by rewrite <- app_assoc, drop_app_length.
        -- intros e' _. unfold Write.printed.
           destruct e as [e| |key| |code]; try done;
             destruct Hrun as [_ Hout]; rewrite Hout; apply drop_all.
Qed.

End WriteScripts.

Section ReplyNumber.
Context {sh : Write.Shell}.
Implicit Types (base num slashes : Py.str).

Lemma last_num_app base num c :
  num ≠ [] → last (base ++ [slash] ++ num) = Some c → last num = Some c.
Proof.
  intros Hnum. destruct num as [|d num _] using rev_ind; [done |].
  rewrite !app_assoc, !last_snoc. done.
Qed.

(** The text of a pull request URL, with blanks around it and slashes after
    it, has the number as its last segment. *)
Lemma url_segments_of_url (ws1 base num slashes ws2 : Py.str) :
  Write.is_space slash = false →
  Forall (λ c, Write.is_space c = true) ws1 →
  Forall (λ c, Write.is_space c = true) ws2 →
  Forall (λ c, c = slash) slashes →
  (∀ c, head (base ++ [slash]) = Some c → Write.is_space c = false) →
  num ≠ [] → slash ∉ num →
  (∀ c, last num = Some c → Write.is_space c = false) →
  last (Write.url_segments (ws1 ++ base ++ [slash] ++ num ++ slashes ++ ws2))
  = Some num.
Proof.
  intros Hslash Hws1 Hws2 Hslashes Hhead Hnum Hnoslash Hlast.
  unfold Write.url_segments, Write.strip.
  rewrite (lstrip_all _ ws1) by
    (try done; intros c Hc; apply Hhead; by destruct base).
  replace (base ++ [slash] ++ num ++ slashes ++ ws2)
    with ((base ++ [slash] ++ num ++ slashes) ++ ws2)
    by (by rewrite <- !app_assoc).
  rewrite (rstrip_all _ _ ws2) by done.
  rewrite (rstrip_keeps Write.is_space).
  - replace (base ++ [slash] ++ num ++ slashes)
      with ((base ++ [slash] ++ num) ++ slashes)
      by (by rewrite <- !app_assoc).
    rewrite (rstrip_all Write.is_slash).
    + rewrite rstrip_keeps.
      * by apply last_split_all.
      * intros c Hc%last_num_app; [|done]. unfold Write.is_slash.
        apply N.eqb_neq. intros ->. by apply last_Some_elem_of in Hc.
    + eapply Forall_impl; [exact Hslashes |].
      intros c ->. unfold Write.is_slash. apply N.eqb_refl.
  - intros c. destruct slashes as [|d slashes _] using rev_ind.
    + rewrite app_nil_r. intros Hc%last_num_app; [|done]. by apply Hlast.
    + rewrite !app_assoc, last_snoc. intros [= <-].
      apply Forall_app in Hslashes as [_ Hd].
      rewrite Forall_singleton in Hd. by subst d.
Qed.

Lemma reply_main_second_call repo comment_id message p meta s pr_number :
  Write.sh_gh (Write.lookup_argv repo comment_id) (Write.p_sh p)
    = (inr meta, s) →
  last (Write.url_segments meta) = Some pr_number →
  ∃ r, Write.calls_made p
         (Write.reply_main [repo; comment_id; message] p).2 =
       [(Write.lookup_argv repo comment_id, None);
        (Write.reply_argv repo pr_number comment_id message, r)].
Proof.
  intros Hgh Hlast.
  unfold Write.reply_main, Write.bind, Write.gh_stdout, Write.last_item.
  rewrite Hgh, Hlast. simpl.
  destruct (Write.sh_gh _ s) as [[e|out] s'] eqn:Hpost; simpl.
  - exists (Some e). unfold Write.calls_made. simpl.
    by rewrite <- app_assoc, drop_app_length.
  - exists None.
    match goal with
    | |- context [Write.print_id_url out ?q] =>
        destruct (print_id_url_run out q) as [Hcalls _];
        destruct (Write.print_id_url out q) as [o q']
    end; simpl in *.
    unfold Write.calls_made. destruct o; simpl; rewrite Hcalls; simpl;
      by rewrite <- app_assoc, drop_app_length.
Qed.

(** X16.  When the lookup prints the URL of the pull request, with blanks
    or a newline around it and slashes after it or not, the reply is posted
    to the replies of the comment under the pull request whose number ends
    that URL. *)
Theorem reply_posted_under_pull_of_url
    repo comment_id message p (ws1 base num slashes ws2 : Py.str) s :
  Write.is_space slash = false →
  Forall (λ c, Write.is_space c = true) ws1 →
  Forall (λ c, Write.is_space c = true) ws2 →
  Forall (λ c, c = slash) slashes →
  (∀ c, head (base ++ [slash]) = Some c → Write.is_space c = false) →
  num ≠ [] → slash ∉ num →
  (∀ c, last num = Some c → Write.is_space c = false) →
  Write.sh_gh (Write.lookup_argv repo comment_id) (Write.p_sh p)
    = (inr (ws1 ++ base ++ [slash] ++ num ++ slashes ++ ws2), s) →
  ∃ r, Write.calls_made p
         (Write.reply_main [repo; comment_id; message] p).2 =
       [(Write.lookup_argv repo comment_id, None);
        (Write.reply_argv repo num comment_id message, r)].
Proof.
  intros Hslash Hws1 Hws2 Hslashes Hhead Hnum Hnoslash Hlast Hgh.
  eapply reply_main_second_call; [exact Hgh |].
  by apply url_segments_of_url.
Qed.

End ReplyNumber.

Lemma reply_posted_under_pull_of_url_witness :
  let p := @Write.fresh Write.sample 0%nat in
  ∃ r, @Write.calls_made Write.sample p
         (@Write.reply_main Write.sample
            [Py.lit "owner/repo"; Py.lit "123456"; Py.lit "fixed"] p).2 =
       [(Write.lookup_argv (Py.lit "owner/repo") (Py.lit "123456"), None);
        (Write.reply_argv (Py.lit "owner/repo") (Py.lit "42")
           (Py.lit "123456") (Py.lit "fixed"), r)].
Proof.
  intros p.
  apply (@reply_posted_under_pull_of_url Write.sample
           (Py.lit "owner/repo") (Py.lit "123456") (Py.lit "fixed") p
           [] (Py.lit "https://api.github.com/repos/owner/repo/pulls")
           (Py.lit "42") [] [10%N] 1%nat).
  - reflexivity.
  - constructor.
  - repeat constructor.
  - constructor.
  - by intros c [= <-].
  - done.
  - refine (bool_decide_unpack _ _). vm_compute. exact I.
  - by intros c [= <-].
  - reflexivity.
Defined.
